(** * duoload: the paginated transfer pipeline and its collaborators

    A shallow embedding of the Rust crate [duoload]:
    - [src/duocards/deck.rs]      validate_deck_id (with the base64, UTF-8 and
                                  uuid library steps it relies on);
    - [src/transfer/duplicates.rs] DuplicateHandler;
    - [src/transfer/processor.rs]  TransferProcessorWithBuilder::process;
    - [src/output/json.rs], [src/output/anki.rs] the two output builders;
    - [src/main.rs]                the order of validation and transfer.

    Integers are modelled with their Rust widths: the page counter is a
    [u32] and the statistics are [usize] (64 bits), both wrapping as in a
    release build.  Progress messages on stderr and the one second sleep
    between pages have no effect on the modelled state and are left out. *)

From Stdlib Require Import String Ascii ZArith NArith Bool List Lia.
From stdpp Require Import base gmap sets list strings.
Import ListNotations.

Local Open Scope N_scope.

(* ------------------------------------------------------------------ *)
(** ** Results and errors ([src/error.rs]) *)

Inductive result (A E : Type) : Type :=
| Ok (a : A)
| Err (e : E).
Arguments Ok {A E} a.
Arguments Err {A E} e.

(** [DeckIdError]; the [String] payloads are diagnostic text and are not
    modelled, only the variant is. *)
Inductive DeckIdError : Type :=
| InvalidBase64
| InvalidFormat
| InvalidUuid
| NotUuidV4.

(** [DuoloadError]; wrapped library errors keep a message string. *)
Inductive DuoloadError : Type :=
| Io (msg : string)
| Request (msg : string)
| Json (msg : string)
| Api (msg : string)
| InvalidHeader (msg : string)
| DeckId (e : DeckIdError)
| Other (msg : string)
| AnkiOutputNotSupported.

Definition Result (A : Type) : Type := result A DuoloadError.

(* ------------------------------------------------------------------ *)
(** ** Bytes *)

Definition byte_of_N (n : N) : Byte.byte :=
  match Byte.of_N (n mod 256) with Some b => b | None => Byte.x00 end.

Definition in_range (lo hi n : N) : bool := (lo <=? n) && (n <=? hi).

(* ------------------------------------------------------------------ *)
(** ** base64 [engine::general_purpose::STANDARD].decode

    Standard alphabet, canonical padding required, trailing bits of the
    last symbol must be zero (the crate's [STANDARD] configuration). *)

Definition b64_value (c : ascii) : option N :=
  let n := N_of_ascii c in
  if in_range 65 90 n then Some (n - 65)
  else if in_range 97 122 n then Some (n - 71)
  else if in_range 48 57 n then Some (n + 4)
  else if n =? 43 then Some 62
  else if n =? 47 then Some 63
  else None.

Definition is_pad (c : ascii) : bool := N_of_ascii c =? 61.

Fixpoint b64_decode (s : string) : option (list Byte.byte) :=
  match s with
  | EmptyString => Some []
  | String a (String b (String c (String d rest))) =>
      match b64_value a, b64_value b with
      | Some va, Some vb =>
          let b0 := byte_of_N (va * 4 + vb / 16) in
          match rest with
          | EmptyString =>
              (* last quantum: "xx==", "xxx=" or "xxxx" *)
              if is_pad c && is_pad d then
                if vb mod 16 =? 0 then Some [b0] else None
              else
                match b64_value c with
                | None => None
                | Some vc =>
                    let b1 := byte_of_N ((vb mod 16) * 16 + vc / 4) in
                    if is_pad d then
                      if vc mod 4 =? 0 then Some [b0; b1] else None
                    else
                      match b64_value d with
                      | None => None
                      | Some vd => Some [b0; b1; byte_of_N ((vc mod 4) * 64 + vd)]
                      end
                end
          | _ =>
              match b64_value c, b64_value d, b64_decode rest with
              | Some vc, Some vd, Some tl =>
                  Some (b0 :: byte_of_N ((vb mod 16) * 16 + vc / 4)
                           :: byte_of_N ((vc mod 4) * 64 + vd) :: tl)
              | _, _, _ => None
              end
          end
      | _, _ => None
      end
  | _ => None
  end.

(* ------------------------------------------------------------------ *)
(** ** [String::from_utf8]: well-formed UTF-8 (Unicode table 3-7) *)

Definition cont (n : N) : bool := in_range 128 191 n.

Fixpoint utf8_ok (l : list N) : bool :=
  match l with
  | [] => true
  | b0 :: r =>
      if b0 <? 128 then utf8_ok r
      else if in_range 194 223 b0 then
        match r with b1 :: r1 => cont b1 && utf8_ok r1 | _ => false end
      else if in_range 224 239 b0 then
        match r with
        | b1 :: b2 :: r2 =>
            (if b0 =? 224 then in_range 160 191 b1
             else if b0 =? 237 then in_range 128 159 b1
             else cont b1) && cont b2 && utf8_ok r2
        | _ => false
        end
      else if in_range 240 244 b0 then
        match r with
        | b1 :: b2 :: b3 :: r3 =>
            (if b0 =? 240 then in_range 144 191 b1
             else if b0 =? 244 then in_range 128 143 b1
             else cont b1) && cont b2 && cont b3 && utf8_ok r3
        | _ => false
        end
      else false
  end.

Definition from_utf8 (bs : list Byte.byte) : option string :=
  if utf8_ok (map Byte.to_N bs) then Some (string_of_list_byte bs) else None.

(* ------------------------------------------------------------------ *)
(** ** [str::starts_with] and [str::trim_start_matches] *)

Fixpoint strip_prefix (p s : string) : option string :=
  match p, s with
  | EmptyString, _ => Some s
  | String c p', String c' s' =>
      if Ascii.eqb c c' then strip_prefix p' s' else None
  | _, _ => None
  end.

Definition starts_with (s p : string) : bool :=
  match strip_prefix p s with Some _ => true | None => false end.

(** [trim_start_matches] removes the pattern repeatedly, as long as the
    text still starts with it.  Each removal shortens the text, so
    [length s] rounds suffice for a non-empty pattern. *)
Fixpoint trim_start_matches_aux (fuel : nat) (s p : string) : string :=
  match fuel with
  | O => s
  | S f =>
      match p with
      | EmptyString => s
      | _ => match strip_prefix p s with
             | Some s' => trim_start_matches_aux f s' p
             | None => s
             end
      end
  end.

Definition trim_start_matches (s p : string) : string :=
  trim_start_matches_aux (String.length s) s p.

(* ------------------------------------------------------------------ *)
(** ** [uuid::Uuid::parse_str] and [Uuid::get_version] (uuid 1.x)

    Accepted shapes: 32 hex digits; the 36-character hyphenated form;
    the hyphenated form in braces (38); "urn:uuid:" + hyphenated (45).
    A [Uuid] is its 16 bytes, kept as numbers below 256. *)

Definition Uuid : Type := list N.

Definition hex_value (c : ascii) : option N :=
  let n := N_of_ascii c in
  if in_range 48 57 n then Some (n - 48)
  else if in_range 97 102 n then Some (n - 87)
  else if in_range 65 70 n then Some (n - 55)
  else None.

Fixpoint hex_bytes (s : string) : option (list N) :=
  match s with
  | EmptyString => Some []
  | String h (String l rest) =>
      match hex_value h, hex_value l, hex_bytes rest with
      | Some vh, Some vl, Some tl => Some (vh * 16 + vl :: tl)
      | _, _, _ => None
      end
  | _ => None
  end.

Definition parse_simple (s : string) : option Uuid :=
  if Nat.eqb (String.length s) 32 then hex_bytes s else None.

Definition is_hyphen (c : option ascii) : bool :=
  match c with Some c => N_of_ascii c =? 45 | None => false end.

Definition parse_hyphenated (s : string) : option Uuid :=
  if Nat.eqb (String.length s) 36 && is_hyphen (String.get 8 s)
     && is_hyphen (String.get 13 s) && is_hyphen (String.get 18 s)
     && is_hyphen (String.get 23 s)
  then hex_bytes (substring 0 8 s ++ substring 9 4 s ++ substring 14 4 s
                  ++ substring 19 4 s ++ substring 24 12 s)%string
  else None.

Definition parse_str (s : string) : option Uuid :=
  let n := String.length s in
  if Nat.eqb n 32 then parse_simple s
  else if Nat.eqb n 36 then parse_hyphenated s
  else if Nat.eqb n 38 then
    match String.get 0 s, String.get 37 s with
    | Some o, Some c =>
        if (N_of_ascii o =? 123) && (N_of_ascii c =? 125)
        then parse_hyphenated (substring 1 36 s) else None
    | _, _ => None
    end
  else if Nat.eqb n 45 then
    match strip_prefix "urn:uuid:" s with
    | Some rest => parse_hyphenated rest
    | None => None
    end
  else None.

Inductive Version : Type :=
| VNil | Mac | Dce | Md5 | Random | Sha1 | SortMac | SortRand | Custom | VMax.

Definition get_version_num (u : Uuid) : N := nth 6 u 0 / 16.

Definition get_version (u : Uuid) : option Version :=
  match get_version_num u with
  | 0 => if forallb (N.eqb 0) u then Some VNil else None
  | 1 => Some Mac
  | 2 => Some Dce
  | 3 => Some Md5
  | 4 => Some Random
  | 5 => Some Sha1
  | 6 => Some SortMac
  | 7 => Some SortRand
  | 8 => Some Custom
  | 15 => if forallb (N.eqb 255) u then Some VMax else None
  | _ => None
  end.

Definition is_random (v : option Version) : bool :=
  match v with Some Random => true | _ => false end.

(* ------------------------------------------------------------------ *)
(** ** [validate_deck_id] ([src/duocards/deck.rs]) *)

Definition validate_deck_id (deck_id : string) : Result unit :=
  match b64_decode deck_id with
  | None => Err (DeckId InvalidBase64)
  | Some decoded =>
      match from_utf8 decoded with
      | None => Err (DeckId InvalidFormat)
      | Some decoded_str =>
          if negb (starts_with decoded_str "Deck:") then Err (DeckId InvalidFormat)
          else
            let uuid_str := trim_start_matches decoded_str "Deck:" in
            match parse_str uuid_str with
            | None => Err (DeckId InvalidUuid)
            | Some uuid =>
                if negb (is_random (get_version uuid)) then Err (DeckId NotUuidV4)
                else Ok tt
            end
      end
  end.

Definition TEST_DECK_ID : string :=
  "RGVjazo0NmYyYjllZC1hYmYzLTRiZDgtYTA1NC02OGRmYTRhNDIwM2U=".

(** The decoded text of an identifier: base64, then UTF-8. *)
Definition decoded_text (deck_id t : string) : Prop :=
  exists bs, b64_decode deck_id = Some bs /\ from_utf8 bs = Some t.

(* ------------------------------------------------------------------ *)
(** ** Data model ([src/duocards/models.rs]) *)

Local Open Scope Z_scope.

Definition u32_wrap (x : Z) : Z := x mod 2 ^ 32.
Definition usize_wrap (x : Z) : Z := x mod 2 ^ 64.

Inductive LearningStatus : Type := New | Learning | Known.

Record VocabularyCard : Type := mkVocabularyCard {
  word : string;
  translation : string;
  example : option string;
  status : LearningStatus
}.

(** A card of the API response; the [waiting] and [svg] JSON values are
    never read and are left out. *)
Record Card : Type := mkCard {
  id : string;
  front : string;
  back : string;
  hint : option string;
  known_count : Z;
  typename : string
}.

Record CardEdge : Type := mkCardEdge { node : Card; edge_cursor : string }.

Record PageInfo : Type := mkPageInfo {
  end_cursor : option string;
  has_next_page : bool
}.

(** [DuocardsResponse], flattened to [data.node.cards]. *)
Record DuocardsResponse : Type := mkDuocardsResponse {
  edges : list CardEdge;
  page_info : PageInfo
}.

(** [impl From<Card> for VocabularyCard] *)
Definition vocabulary_card_of_card (card : Card) : VocabularyCard :=
  let status := if 5 <=? known_count card then Known
                else if 0 <? known_count card then Learning
                else New in
  {| word := front card; translation := back card;
     example := hint card; status := status |}.

Definition convert_edges (response : DuocardsResponse) : list VocabularyCard :=
  map (fun edge => vocabulary_card_of_card (node edge)) (edges response).

(* ------------------------------------------------------------------ *)
(** ** Destinations and the outside world ([src/output/mod.rs]) *)

Inductive OutputDestination : Type :=
| Writer                      (** the process's standard output *)
| File (path : string).       (** a path, as its bytes *)

(** The [std::io] operations a sink performs, each of which can fail. *)
Inductive IoOp : Type :=
| IoStreamWriteAll                (** [write_all] on the standard output *)
| IoCreate (path : string)        (** [File::create] *)
| IoBufWriteAll (path : string)   (** [write_all] on a [BufWriter] of the file *)
| IoFlush (path : string).        (** [flush] of that [BufWriter] *)

(** What a write can change: the bytes sent to the stream and the files;
    [io_error] says which operations the environment makes fail, and with
    which message. *)
Record World : Type := mkWorld {
  stream : list Byte.byte;
  files : gmap string (list Byte.byte);
  io_error : IoOp -> option string
}.

(* ------------------------------------------------------------------ *)
(** ** The two traits *)

(** The outcome of a call that may panic instead of returning. *)
Inductive call (A : Type) : Type :=
| Returned (a : A)
| Panicked (msg : string).
Arguments Returned {A} a.
Arguments Panicked {A} msg.

(** [DuocardsClientTrait], with the page limit methods the processor
    calls.  [fetch_page] may panic (the test client does on an empty
    queue).  [fetch_page] returns the client's next state: the test client
    consumes its queued responses.  [convert_to_vocabulary_cards] takes
    [&self] in Rust, but no implementation reads it, so the model drops it. *)
Class DuocardsClientTrait (C : Type) : Type := {
  fetch_page : C -> string -> option string -> call (Result DuocardsResponse * C);
  convert_to_vocabulary_cards : DuocardsResponse -> list VocabularyCard;
  should_continue : C -> Z -> bool;
  page_limit : C -> option Z
}.

(** [OutputBuilder] *)
Class OutputBuilder (B : Type) : Type := {
  add_note : B -> VocabularyCard -> Result bool * B;
  write : B -> OutputDestination -> World -> Result unit * World
}.

(* ------------------------------------------------------------------ *)
(** ** [DuplicateHandler] ([src/transfer/duplicates.rs]) *)

Record DuplicateHandler : Type := mkDuplicateHandler {
  processed_words : gset string
}.

Definition DuplicateHandler_new : DuplicateHandler := mkDuplicateHandler ∅.

(** [!self.processed_words.insert(word.to_string())]: [HashSet::insert]
    returns false, and leaves the set as it is, when the word is present. *)
Definition try_remember (h : DuplicateHandler) (w : string) : bool * DuplicateHandler :=
  if decide (w ∈ processed_words h) then (true, h)
  else (false, mkDuplicateHandler ({[w]} ∪ processed_words h)).

(* ------------------------------------------------------------------ *)
(** ** The transfer processor ([src/transfer/processor.rs]) *)

Record TransferStats : Type := mkTransferStats {
  total_cards : Z;     (** usize *)
  duplicates : Z       (** usize *)
}.

Definition TransferStats_default : TransferStats := mkTransferStats 0 0.

(** What the processor does, in order: each call of a collaborator. *)
Inductive Event : Type :=
| EvValidate (deck_id : string)
| EvFetch (cursor : option string) (r : Result DuocardsResponse)
| EvRemember (word : string) (duplicate : bool)
| EvAdd (card : VocabularyCard) (r : Result bool)
| EvWrite (dest : OutputDestination) (r : Result unit).

Inductive LoopOutcome : Type :=
| LoopDone
| LoopFailed (e : DuoloadError)
| LoopOutOfFuel
| LoopPanicked.

Section Pipeline.
Context {C B : Type} `{DuocardsClientTrait C} `{OutputBuilder B}.

(** [TransferProcessorWithBuilder]; [dedup] is the Rust field
    [duplicates] (the name is taken by the statistics counter here). *)
Record Processor : Type := mkProcessor {
  client : C;
  builder : B;
  dedup : DuplicateHandler;
  stats : TransferStats;
  proc_deck_id : string;
  output_path : string
}.

Definition set_client (p : Processor) (c : C) : Processor :=
  mkProcessor c (builder p) (dedup p) (stats p) (proc_deck_id p) (output_path p).
Definition set_builder (p : Processor) (b : B) : Processor :=
  mkProcessor (client p) b (dedup p) (stats p) (proc_deck_id p) (output_path p).
Definition set_dedup (p : Processor) (d : DuplicateHandler) : Processor :=
  mkProcessor (client p) (builder p) d (stats p) (proc_deck_id p) (output_path p).
Definition set_stats (p : Processor) (s : TransferStats) : Processor :=
  mkProcessor (client p) (builder p) (dedup p) s (proc_deck_id p) (output_path p).

(** [TransferProcessor::new(client, deck_id).output(builder, path)] *)
Definition processor_output (c : C) (deck_id : string) (b : B) (path : string) : Processor :=
  mkProcessor c b DuplicateHandler_new TransferStats_default deck_id path.

Definition incr_duplicates (s : TransferStats) : TransferStats :=
  mkTransferStats (total_cards s) (usize_wrap (duplicates s + 1)).
Definition incr_total_cards (s : TransferStats) : TransferStats :=
  mkTransferStats (usize_wrap (total_cards s + 1)) (duplicates s).

(** The [for card in cards] loop; [Some e] is an error out of [add_note]. *)
Fixpoint process_cards (p : Processor) (cards : list VocabularyCard)
  : option DuoloadError * Processor * list Event :=
  match cards with
  | [] => (None, p, [])
  | card :: rest =>
      let '(dup, d) := try_remember (dedup p) (word card) in
      let p1 := set_dedup p d in
      if dup then
        let '(r, p', tr) := process_cards (set_stats p1 (incr_duplicates (stats p1))) rest in
        (r, p', EvRemember (word card) true :: tr)
      else
        let '(res, b) := add_note (builder p1) card in
        let p2 := set_builder p1 b in
        match res with
        | Err e => (Some e, p2, [EvRemember (word card) false; EvAdd card (Err e)])
        | Ok added =>
            let p3 := if added then set_stats p2 (incr_total_cards (stats p2)) else p2 in
            let '(r, p', tr) := process_cards p3 rest in
            (r, p', EvRemember (word card) false :: EvAdd card (Ok added) :: tr)
        end
  end.

(** The [loop] of [process], one round per unit of fuel.  A panic in
    [fetch_page] unwinds out of the loop: no event, no result. *)
Fixpoint process_loop (fuel : nat) (p : Processor) (cursor : option string)
    (page_count : Z) : LoopOutcome * Processor * list Event :=
  match fuel with
  | O => (LoopOutOfFuel, p, [])
  | S fuel' =>
      let page_count := u32_wrap (page_count + 1) in
      if negb (should_continue (client p) page_count) then (LoopDone, p, [])
      else
        match fetch_page (client p) (proc_deck_id p) cursor with
        | Panicked _ => (LoopPanicked, p, [])
        | Returned (r, c) =>
            let p := set_client p c in
            match r with
            | Err e => (LoopFailed e, p, [EvFetch cursor (Err e)])
            | Ok response =>
                let cards := convert_to_vocabulary_cards response in
                let '(r2, p2, tr2) := process_cards p cards in
                match r2 with
                | Some e => (LoopFailed e, p2, EvFetch cursor (Ok response) :: tr2)
                | None =>
                    if negb (has_next_page (page_info response))
                    then (LoopDone, p2, EvFetch cursor (Ok response) :: tr2)
                    else
                      let '(o, p3, tr3) :=
                        process_loop fuel' p2 (end_cursor (page_info response)) page_count in
                      (o, p3, EvFetch cursor (Ok response) :: tr2 ++ tr3)
                end
            end
        end
  end.

(** [write_output] *)
Definition write_output (p : Processor) (w : World) : Result unit * World * Event :=
  let dest := if String.eqb (output_path p) "-" then Writer else File (output_path p) in
  let '(r, w') := write (builder p) dest w in
  (r, w', EvWrite dest r).

(** [process]; [None] when it returns no result: the fuel runs out
    before the loop stops, or a call panics. *)
Definition process (fuel : nat) (p : Processor) (w : World)
  : option (Result unit) * Processor * World * list Event :=
  let '(o, p1, tr) := process_loop fuel p None 0 in
  match o with
  | LoopOutOfFuel => (None, p1, w, tr)
  | LoopPanicked => (None, p1, w, tr)
  | LoopFailed e => (Some (Err e), p1, w, tr)
  | LoopDone =>
      let '(r, w', ev) := write_output p1 w in
      (Some r, p1, w', tr ++ [ev])
  end.

End Pipeline.

(* ------------------------------------------------------------------ *)
(** ** Reading a trace *)

(** The cards handed to [add_note], in order. *)
Fixpoint added_cards (tr : list Event) : list VocabularyCard :=
  match tr with
  | [] => []
  | EvAdd card _ :: tr' => card :: added_cards tr'
  | _ :: tr' => added_cards tr'
  end.

(** The pages returned by successful fetches, in order. *)
Fixpoint fetched_pages (tr : list Event) : list DuocardsResponse :=
  match tr with
  | [] => []
  | EvFetch _ (Ok response) :: tr' => response :: fetched_pages tr'
  | _ :: tr' => fetched_pages tr'
  end.

(** The number of [fetch_page] calls. *)
Fixpoint fetch_calls (tr : list Event) : nat :=
  match tr with
  | [] => O
  | EvFetch _ _ :: tr' => S (fetch_calls tr')
  | _ :: tr' => fetch_calls tr'
  end.

(* ------------------------------------------------------------------ *)
(** ** The test doubles of [processor.rs] *)

(** [should_continue] of [TestDuocardsClient]. *)
Definition should_continue_limit (limit : option Z) (current_page : Z) : bool :=
  match limit with
  | Some l => current_page <=? l
  | None => true
  end.

Record TestDuocardsClient : Type := mkTestDuocardsClient {
  responses : list DuocardsResponse;
  test_page_limit : option Z
}.

(** On an empty queue the test double panics. *)
#[export] Instance TestDuocardsClient_client : DuocardsClientTrait TestDuocardsClient := {
  fetch_page c _ _ :=
    match responses c with
    | [] => Panicked "No more test responses available"
    | r :: rest => Returned (Ok r, mkTestDuocardsClient rest (test_page_limit c))
    end;
  convert_to_vocabulary_cards response := convert_edges response;
  should_continue c current_page := should_continue_limit (test_page_limit c) current_page;
  page_limit c := test_page_limit c
}.

Record TestOutputBuilder : Type := mkTestOutputBuilder {
  added : list VocabularyCard
}.

Definition TEST_OUTPUT : list Byte.byte := list_byte_of_string "TEST_OUTPUT".

(** [TestOutputBuilder::write]: [writer.write_all(b"TEST_OUTPUT")?] on a
    stream; on a file [File::create(path)?] (which truncates it),
    [write_all]? into a [BufWriter] and [flush()?], which puts the bytes
    in the file.  An [io::Error] becomes [DuoloadError::Io] through [?]. *)
Definition test_write (dest : OutputDestination) (w : World) : Result unit * World :=
  match dest with
  | Writer =>
      match io_error w IoStreamWriteAll with
      | Some msg => (Err (Io msg), w)
      | None => (Ok tt, mkWorld (stream w ++ TEST_OUTPUT) (files w) (io_error w))
      end
  | File path =>
      match io_error w (IoCreate path) with
      | Some msg => (Err (Io msg), w)
      | None =>
          let w1 := mkWorld (stream w) (<[path := []]> (files w)) (io_error w) in
          match io_error w (IoBufWriteAll path) with
          | Some msg => (Err (Io msg), w1)
          | None =>
              match io_error w (IoFlush path) with
              | Some msg => (Err (Io msg), w1)
              | None => (Ok tt, mkWorld (stream w) (<[path := TEST_OUTPUT]> (files w)) (io_error w))
              end
          end
      end
  end.

#[export] Instance TestOutputBuilder_builder : OutputBuilder TestOutputBuilder := {
  add_note b card :=
    if existsb (fun c => String.eqb (word c) (word card)) (added b) then (Ok false, b)
    else (Ok true, mkTestOutputBuilder (added b ++ [card]));
  write b dest w := test_write dest w
}.

(** [create_test_response] *)
Definition create_test_response (cards : list VocabularyCard) (has_next : bool)
    (cursor : option string) : DuocardsResponse :=
  mkDuocardsResponse
    (map (fun card =>
            mkCardEdge
              (mkCard "test-id" (word card) (translation card) (example card)
                 (match status card with Known => 5 | Learning => 2 | New => 0 end)
                 "Card")
              "0") cards)
    (mkPageInfo cursor has_next).

(** No stream output, no files, no failing IO operation. *)
Definition empty_world : World := mkWorld [] ∅ (fun _ => None).

(* ------------------------------------------------------------------ *)
(** ** The end-to-end scenario *)

Definition hello_new : VocabularyCard := mkVocabularyCard "hello" "hola" None New.
Definition world_known : VocabularyCard := mkVocabularyCard "world" "mundo" None Known.
Definition hello_learning : VocabularyCard := mkVocabularyCard "hello" "hola" None Learning.

Definition scenario_client : TestDuocardsClient :=
  mkTestDuocardsClient
    [create_test_response [hello_new; world_known] true (Some "c1");
     create_test_response [hello_learning] false None]
    None.

Definition scenario_run :=
  process 10 (processor_output scenario_client "test-deck" (mkTestOutputBuilder [])
                "test_output.txt") empty_world.

(* ------------------------------------------------------------------ *)
(** ** The deduplication tracker over a sequence of words *)

Fixpoint remember_all (h : DuplicateHandler) (ws : list string)
  : list bool * DuplicateHandler :=
  match ws with
  | [] => ([], h)
  | w :: ws' =>
      let '(b, h') := try_remember h w in
      let '(bs, h'') := remember_all h' ws' in
      (b :: bs, h'')
  end.

(* ------------------------------------------------------------------ *)
(** ** Order of the records handed to the sink *)

(** The stream with every record whose word occurred earlier removed
    ([s] holds the words already seen). *)
Fixpoint dedup_filter (s : gset string) (cards : list VocabularyCard) : list VocabularyCard :=
  match cards with
  | [] => []
  | c :: rest =>
      if decide (word c ∈ s) then dedup_filter s rest
      else c :: dedup_filter ({[word c]} ∪ s) rest
  end.

(** An [add_note] call that returned an error. *)
Definition failed_add (tr : list Event) : Prop :=
  exists card e, In (EvAdd card (Err e)) tr.

(** The error of a failed [fetch_page] or [add_note] call. *)
Definition is_failure (ev : Event) : option DuoloadError :=
  match ev with
  | EvFetch _ (Err e) => Some e
  | EvAdd _ (Err e) => Some e
  | _ => None
  end.

Definition no_failure (tr : list Event) : Prop :=
  forall ev, In ev tr -> is_failure ev = None.

Definition no_write (tr : list Event) : Prop :=
  forall d r, ~ In (EvWrite d r) tr.

(** A processor whose duplicate handler is fresh but whose test sink
    already holds "hello": the sink rejects the card on its own. *)
Definition sink_rejects_processor :=
  processor_output scenario_client "test-deck" (mkTestOutputBuilder [hello_new]) "out.txt".

(* ------------------------------------------------------------------ *)
(** ** Page limit: the [u32] page counter *)

(** [u32::MAX], the largest limit [validate_page_limit] accepts. *)
Definition u32_max : Z := 2 ^ 32 - 1.

(** An empty page that reports further pages. *)
Definition more_page : DuocardsResponse := create_test_response [] true None.

(** Two pages with cards, each reporting a next page. *)
Definition page_hello_world : DuocardsResponse :=
  create_test_response [hello_new; world_known] true (Some "c1").
Definition page_hello : DuocardsResponse :=
  create_test_response [hello_learning] true (Some "c2").

(* ------------------------------------------------------------------ *)
(** ** The sinks ([src/output/anki.rs], [src/output/json.rs]) *)

(** [Path::to_str]: [None] unless the path bytes are UTF-8. *)
Definition path_to_str (path : string) : option string :=
  if utf8_ok (map Byte.to_N (list_byte_of_string path)) then Some path else None.

(** [VocabularyNote] and its [From<VocabularyCard>]. *)
Record VocabularyNote : Type := mkVocabularyNote {
  note_word : string;
  note_translation : string;
  note_example : option string;
  note_tags : list string
}.

Definition vocabulary_note_of_card (card : VocabularyCard) : VocabularyNote :=
  mkVocabularyNote (word card) (translation card) (example card)
    (match status card with
     | New => ["duoload_new"]
     | Learning => ["duoload_learning"]
     | Known => ["duoload_known"]
     end).

Section AnkiPackage.
(** The genanki crate, whose code is not part of this repository. *)
Variables Deck Model Note : Type.
Variable Note_new : Model -> list string -> result Note string.
Variable Note_tags : Note -> list string -> Note.
Variable Deck_add_note : Deck -> Note -> Deck.
Variable Deck_write_to_file : Deck -> string -> World -> result unit string * World.

(** [VocabularyNote::to_anki_note] *)
Definition to_anki_note (n : VocabularyNote) (model : Model) : result Note string :=
  match Note_new model [note_word n; note_translation n;
                        match note_example n with Some e => e | None => EmptyString end] with
  | Ok note => Ok (Note_tags note (note_tags n))
  | Err e => Err e
  end.

Record AnkiPackageBuilder : Type := mkAnkiPackageBuilder {
  deck : Deck;
  model : Model;
  existing_words : gset string
}.

(** [AnkiPackageBuilder::add_note]; an [anyhow] error becomes [Other]. *)
Definition anki_add_note (b : AnkiPackageBuilder) (vocab_card : VocabularyCard)
  : Result bool * AnkiPackageBuilder :=
  if decide (word vocab_card ∈ existing_words b) then (Ok false, b)
  else
    let w := word vocab_card in
    match to_anki_note (vocabulary_note_of_card vocab_card) (model b) with
    | Err e => (Err (Other e), b)
    | Ok note =>
        (Ok true, mkAnkiPackageBuilder (Deck_add_note (deck b) note) (model b)
                    ({[w]} ∪ existing_words b))
    end.

(** [AnkiPackageBuilder::write] *)
Definition anki_write (b : AnkiPackageBuilder) (dest : OutputDestination) (w : World)
  : Result unit * World :=
  match dest with
  | Writer => (Err AnkiOutputNotSupported, w)
  | File path =>
      match path_to_str path with
      | None => (Err (Other "Invalid file path"), w)
      | Some path_str =>
          match Deck_write_to_file (deck b) path_str w with
          | (Ok _, w') => (Ok tt, w')
          | (Err e, w') => (Err (Other ("Failed to write Anki package: " ++ e)), w')
          end
      end
  end.

#[local] Instance AnkiPackageBuilder_builder : OutputBuilder AnkiPackageBuilder := {
  add_note := anki_add_note;
  write := anki_write
}.

End AnkiPackage.

(** [JsonOutputBuilder]; [start_time] only feeds a log line. *)
Record JsonOutputBuilder : Type := mkJsonOutputBuilder {
  cards : list VocabularyCard;
  json_existing_words : gset string
}.

Definition JsonOutputBuilder_new : JsonOutputBuilder := mkJsonOutputBuilder [] ∅.

(** [JsonOutputBuilder::add_note] *)
Definition json_add_note (b : JsonOutputBuilder) (card : VocabularyCard)
  : Result bool * JsonOutputBuilder :=
  if decide (word card ∈ json_existing_words b) then (Ok false, b)
  else (Ok true, mkJsonOutputBuilder (cards b ++ [card]) ({[word card]} ∪ json_existing_words b)).

(** [add_note] called on each card of a sequence in turn: the answers
    and the final builder. *)
Fixpoint json_add_all (b : JsonOutputBuilder) (cs : list VocabularyCard)
  : list (Result bool) * JsonOutputBuilder :=
  match cs with
  | [] => ([], b)
  | c :: rest =>
      let '(r, b1) := json_add_note b c in
      let '(rs, b2) := json_add_all b1 rest in
      (r :: rs, b2)
  end.

(* ------------------------------------------------------------------ *)
(** ** [main] ([src/main.rs]) *)

Record Args : Type := mkArgs {
  arg_deck_id : string;
  anki_file : option string;
  json_file : option string;
  json : bool;
  pages : option Z
}.

(** The [Display] text of a deck id error, payloads left out. *)
Definition deck_id_error_text (e : DuoloadError) : string :=
  match e with
  | DeckId InvalidBase64 => "Deck ID error: Invalid base64 encoding"
  | DeckId InvalidFormat => "Deck ID error: Invalid deck ID format"
  | DeckId InvalidUuid => "Deck ID error: Invalid UUID"
  | DeckId NotUuidV4 => "Deck ID error: UUID is not version 4"
  | _ => "error"
  end.

Section Main.
Context {C : Type} `{DuocardsClientTrait C}.
Context {BA BJ : Type} `{OutputBuilder BA} `{OutputBuilder BJ}.
(** [DuocardsClient::new], [with_page_limit], [AnkiPackageBuilder::new]
    and [JsonOutputBuilder::new]. *)
Variable client_new : result C string.
Variable with_page_limit : C -> Z -> C.
Variable anki_builder_new : BA.
Variable json_builder_new : BJ.

(** [main] after argument parsing; the trace starts with the deck id
    check when [main] reaches it. *)
Definition main_run (fuel : nat) (args : Args) (w : World)
  : option (Result unit) * World * list Event :=
  if negb (bool_decide (is_Some (anki_file args))) && negb (bool_decide (is_Some (json_file args)))
     && negb (json args)
  then (Some (Err (Api "Please specify either --anki-file, --json-file, or --json")), w, [])
  else
    match client_new with
    | Err e => (Some (Err (Api ("Failed to initialize client: " ++ e))), w, [])
    | Ok client0 =>
        let client1 :=
          match pages args with Some limit => with_page_limit client0 limit | None => client0 end in
        match validate_deck_id (arg_deck_id args) with
        | Err e =>
            (Some (Err (Api ("Invalid deck ID: " ++ deck_id_error_text e))), w,
             [EvValidate (arg_deck_id args)])
        | Ok _ =>
            match anki_file args with
            | Some path =>
                let '(r, _, w', tr) :=
                  process fuel (processor_output client1 (arg_deck_id args) anki_builder_new path) w in
                (r, w', EvValidate (arg_deck_id args) :: tr)
            | None =>
                if json args then
                  let '(r, _, w', tr) :=
                    process fuel (processor_output client1 (arg_deck_id args) json_builder_new "-") w in
                  (r, w', EvValidate (arg_deck_id args) :: tr)
                else
                  let path := match json_file args with Some p => p | None => EmptyString end in
                  let '(r, _, w', tr) :=
                    process fuel (processor_output client1 (arg_deck_id args) json_builder_new path) w in
                  (r, w', EvValidate (arg_deck_id args) :: tr)
            end
        end
    end.

End Main.

(* ------------------------------------------------------------------ *)
(** ** [DuocardsClient] ([src/duocards/client.rs], [src/duocards/models.rs]) *)

(** [DuocardsClient::validate_deck_id], the client's own copy of the
    check. *)
Definition client_validate_deck_id (deck_id : string) : Result unit :=
  match b64_decode deck_id with
  | None => Err (DeckId InvalidBase64)
  | Some decoded =>
      match from_utf8 decoded with
      | None => Err (DeckId InvalidFormat)
      | Some decoded_str =>
          if negb (starts_with decoded_str "Deck:") then Err (DeckId InvalidFormat)
          else
            let uuid_str := trim_start_matches decoded_str "Deck:" in
            match parse_str uuid_str with
            | None => Err (DeckId InvalidUuid)
            | Some uuid =>
                if negb (is_random (get_version uuid)) then Err (DeckId NotUuidV4)
                else Ok tt
            end
      end
  end.

Definition DEFAULT_PAGE_SIZE : Z := 30.

(** [CardsQueryVariables] and [CardsQuery] (fields prefixed by [q_]). *)
Record CardsQueryVariables : Type := mkCardsQueryVariables {
  q_count : Z;
  q_cursor : option string;
  q_deck_id : string;
  q_search : string;
  q_card_state : option string
}.

Record CardsQuery : Type := mkCardsQuery {
  q_query : string;
  q_variables : CardsQueryVariables
}.

(** A response as [reqwest] hands it over. *)
Record HttpResponse : Type := mkHttpResponse {
  http_status : Z;
  http_body : string
}.

(** [StatusCode::is_success]: 200 to 299. *)
Definition is_success (status : Z) : bool := (200 <=? status) && (status <=? 299).

Section DuocardsHttp.
(** The text of [query.graphql] (not in this repository), [serde_json]
    and [reqwest]. *)
Variable QUERY_GRAPHQL : string.
Variable to_string_pretty : CardsQuery -> result string DuoloadError.
Variable send : string -> CardsQuery -> result HttpResponse DuoloadError.
Variable response_text : HttpResponse -> result string DuoloadError.
Variable response_json : HttpResponse -> result DuocardsResponse DuoloadError.
Variable status_display : Z -> string.

(** [CardsQuery::new] *)
Definition CardsQuery_new (deck_id : string) (count : Z) (cursor : option string) : CardsQuery :=
  mkCardsQuery QUERY_GRAPHQL (mkCardsQueryVariables count cursor deck_id EmptyString None).

(** [DuocardsClient::fetch_page], with the list of the requests sent. *)
Definition client_fetch_page (base_url deck_id : string) (cursor : option string)
  : Result DuocardsResponse * list CardsQuery :=
  match client_validate_deck_id deck_id with
  | Err e => (Err e, [])
  | Ok _ =>
      let query := CardsQuery_new deck_id DEFAULT_PAGE_SIZE cursor in
      match to_string_pretty query with
      | Err e => (Err e, [])
      | Ok _ =>
          match send base_url query with
          | Err e => (Err e, [query])
          | Ok response =>
              if negb (is_success (http_status response)) then
                match response_text response with
                | Err e => (Err e, [query])
                | Ok text =>
                    (Err (Api ("API request failed with status " ++ status_display (http_status response)
                               ++ ": " ++ text)), [query])
                end
              else
                match response_json response with
                | Err e => (Err e, [query])
                | Ok r => (Ok r, [query])
                end
          end
      end
  end.

End DuocardsHttp.

(* ------------------------------------------------------------------ *)
(** ** [validate_page_limit] ([src/main.rs]) *)

Definition digit_value (c : ascii) : option Z :=
  let n := Z.of_nat (nat_of_ascii c) in
  if (48 <=? n) && (n <=? 57) then Some (n - 48) else None.

(** The digit loop of [u32::from_str_radix(_, 10)]: [checked_mul] and
    [checked_add] fail past [u32::MAX]. *)
Fixpoint parse_digits (acc : Z) (s : string) : option Z :=
  match s with
  | EmptyString => Some acc
  | String c s' =>
      match digit_value c with
      | None => None
      | Some d =>
          let acc' := acc * 10 + d in
          if acc' <=? u32_max then parse_digits acc' s' else None
      end
  end.

(** [<u32 as FromStr>::from_str]: not empty; a lone sign is refused; one
    leading '+' is skipped (an unsigned type takes no '-'). *)
Definition parse_u32 (s : string) : option Z :=
  match s with
  | EmptyString => None
  | String c rest =>
      if (Ascii.eqb c "+" || Ascii.eqb c "-") && String.eqb rest EmptyString then None
      else if Ascii.eqb c "+" then parse_digits 0 rest
      else parse_digits 0 s
  end.

Definition validate_page_limit (s : string) : result Z string :=
  match parse_u32 s with
  | Some n => if 0 <? n then Ok n else Err "Page limit must be a positive integer"
  | None => Err "Page limit must be a valid positive integer"
  end.

(** [u32::to_string]: decimal digits, most significant first. *)
Definition digit_char (d : Z) : ascii := ascii_of_nat (Z.to_nat (48 + d)).

Fixpoint dec_aux (fuel : nat) (n : Z) (acc : string) : string :=
  match fuel with
  | O => acc
  | S f =>
      let acc' := String (digit_char (n mod 10)) acc in
      if n <? 10 then acc' else dec_aux f (n / 10) acc'
  end.

Definition u32_to_string (n : Z) : string := dec_aux 10 n EmptyString.

(* ------------------------------------------------------------------ *)
(** ** More readers of a trace *)

(** The fetch calls: the cursor passed and the answer. *)
Fixpoint fetches (tr : list Event) : list (option string * Result DuocardsResponse) :=
  match tr with
  | [] => []
  | EvFetch cursor r :: tr' => (cursor, r) :: fetches tr'
  | _ :: tr' => fetches tr'
  end.

(** Pagination: each call passes [cursor], the [end_cursor] of the page
    before; a page is followed by another call only if it reported a
    next page; a failed call is the last. *)
Fixpoint cursor_chain (cursor : option string)
    (fs : list (option string * Result DuocardsResponse)) : Prop :=
  match fs with
  | [] => True
  | (c, r) :: rest =>
      c = cursor /\
      match r with
      | Ok response =>
          (rest <> [] -> has_next_page (page_info response) = true) /\
          cursor_chain (end_cursor (page_info response)) rest
      | Err _ => rest = []
      end
  end.

(** [add_note] calls that answered [Ok true]. *)
Fixpoint count_added (tr : list Event) : nat :=
  match tr with
  | [] => O
  | EvAdd _ (Ok true) :: tr' => S (count_added tr')
  | _ :: tr' => count_added tr'
  end.

(** Words the duplicate handler reported as seen. *)
Fixpoint count_duplicates (tr : list Event) : nat :=
  match tr with
  | [] => O
  | EvRemember _ true :: tr' => S (count_duplicates tr')
  | _ :: tr' => count_duplicates tr'
  end.

(** The [write] calls: destination and result. *)
Fixpoint writes (tr : list Event) : list (OutputDestination * Result unit) :=
  match tr with
  | [] => []
  | EvWrite d r :: tr' => (d, r) :: writes tr'
  | _ :: tr' => writes tr'
  end.

(** The destination [write_output] picks for an output path. *)
Definition destination_of (path : string) : OutputDestination :=
  if String.eqb path "-" then Writer else File path.

(* ------------------------------------------------------------------ *)
(** ** The builders as [OutputBuilder] instances *)

(** The JSON builder's [add_note]; its [write] takes a plain writer in
    the source, out of line with the trait, so it is a parameter here. *)
Definition JsonOutputBuilder_builder
    (json_write : JsonOutputBuilder -> OutputDestination -> World -> Result unit * World)
  : OutputBuilder JsonOutputBuilder :=
  {| add_note := json_add_note; write := json_write |}.

(** An in-memory stand-in for genanki, to run the Anki builder: a note
    is its list of fields, a deck the list of its notes, and writing a
    package to a file succeeds and changes nothing. *)
Definition mem_note_new (_ : unit) (fields : list string) : result (list string) string :=
  Ok fields.
Definition mem_note_tags (n : list string) (_ : list string) : list string := n.
Definition mem_deck_add_note (d : list (list string)) (n : list string) : list (list string) :=
  d ++ [n].
Definition mem_write_to_file (_ : list (list string)) (_ : string) (w : World)
  : result unit string * World := (Ok tt, w).

Definition mem_anki_builder : OutputBuilder (AnkiPackageBuilder (list (list string)) unit) :=
  AnkiPackageBuilder_builder (list (list string)) unit (list string)
    mem_note_new mem_note_tags mem_deck_add_note mem_write_to_file.

(** The scenario client feeding an empty Anki package, output path "-". *)
Definition anki_stdout_processor :=
  @processor_output TestDuocardsClient (AnkiPackageBuilder (list (list string)) unit)
    scenario_client "test-deck" (mkAnkiPackageBuilder _ _ [] tt ∅) "-".

(* ================================================================== *)
(** * Properties *)

(** ** [validate_deck_id] *)

Local Open Scope N_scope.

Example validate_test_deck_id : validate_deck_id TEST_DECK_ID = Ok tt.
Proof. vm_compute. reflexivity. Qed.
Example validate_not_base64 : validate_deck_id "not-base64!" = Err (DeckId InvalidBase64).
Proof. vm_compute. reflexivity. Qed.
Example validate_no_prefix : validate_deck_id "Tm90QURlY2s6MTIz" = Err (DeckId InvalidFormat).
Proof. vm_compute. reflexivity. Qed.
Example validate_bad_uuid : validate_deck_id "RGVjazpub3QtYS11dWlk" = Err (DeckId InvalidUuid).
Proof. vm_compute. reflexivity. Qed.
Example validate_v1_uuid :
  validate_deck_id "RGVjazowMDAwMDAwMC0wMDAwLTEwMDAtODAwMC0wMDAwMDAwMDAwMDA="
  = Err (DeckId NotUuidV4).
Proof. vm_compute. reflexivity. Qed.

Lemma strip_prefix_app (p q s : string) :
  strip_prefix (p ++ q)%string s
  = match strip_prefix p s with Some r => strip_prefix q r | None => None end.
Proof.
  revert s; induction p as [|c p IH]; intros s; [reflexivity|].
  destruct s as [|c' s]; simpl; [reflexivity|].
  destruct (Ascii.eqb c c'); [apply IH | reflexivity].
Qed.

Lemma trim_start_matches_aux_stop (f : nat) (s p : string) :
  strip_prefix p s = None -> trim_start_matches_aux f s p = s.
Proof.
  intros H. destruct f as [|f]; [reflexivity|]. simpl.
  destruct p as [|c p']; [reflexivity|]. rewrite H. reflexivity.
Qed.

Lemma strip_prefix_length (p s r : string) :
  strip_prefix p s = Some r -> String.length s = (String.length p + String.length r)%nat.
Proof.
  revert s; induction p as [|c p IH]; intros s H; simpl in H.
  - inversion H; reflexivity.
  - destruct s as [|c' s]; [discriminate|].
    destruct (Ascii.eqb c c'); [|discriminate]. simpl. rewrite (IH s H). reflexivity.
Qed.

(** Removing "Deck:" once leaves the same text as [trim_start_matches]
    whenever the text does not start with "Deck:Deck:". *)
Lemma trim_deck_once (t r : string) :
  strip_prefix "Deck:" t = Some r ->
  strip_prefix "Deck:Deck:" t = None ->
  trim_start_matches t "Deck:" = r.
Proof.
  intros H1 H2.
  assert (Hr : strip_prefix "Deck:" r = None).
  { change "Deck:Deck:"%string with ("Deck:" ++ "Deck:")%string in H2.
    rewrite strip_prefix_app, H1 in H2. exact H2. }
  unfold trim_start_matches. rewrite (strip_prefix_length _ _ _ H1).
  change (String.length "Deck:" + String.length r)%nat with (S (4 + String.length r)).
  change (trim_start_matches_aux (S (4 + String.length r)) t "Deck:")
    with (match strip_prefix "Deck:" t with
          | Some s' => trim_start_matches_aux (4 + String.length r) s' "Deck:"
          | None => t end).
  rewrite H1. apply trim_start_matches_aux_stop, Hr.
Qed.

Lemma is_random_spec (v : option Version) : is_random v = true <-> v = Some Random.
Proof. destruct v as [[]|]; simpl; split; congruence. Qed.

Ltac decoded_cases :=
  unfold decoded_text in *; cbv beta iota zeta delta [negb] in *;
  repeat split; intros;
  repeat match goal with
         | H : exists _, _ |- _ => destruct H
         | H : _ /\ _ |- _ => destruct H
         | H : _ \/ _ |- _ => destruct H
         end;
  repeat match goal with
         | H1 : ?a = Some _, H2 : ?a = Some _ |- _ =>
             rewrite H1 in H2; injection H2 as H2; subst
         end;
  simplify_eq; eauto 10; try congruence.

(** C4 (as amended).  Validation succeeds exactly when the identifier is
    canonical standard base64, the decoded bytes are UTF-8, the text starts
    with "Deck:" and the text after that prefix parses as a UUID whose
    version is 4.  Each failed check has its own error kind, except that
    invalid UTF-8 and a missing prefix share [InvalidFormat]; no other
    error is returned.  Stated for identifiers whose decoded text does not
    start with "Deck:Deck:" (there the whole run of prefixes is removed). *)
Theorem validate_deck_id_amended (deck_id : string)
  (Hsingle : forall t, decoded_text deck_id t -> strip_prefix "Deck:Deck:" t = None) :
  (validate_deck_id deck_id = Ok tt <->
     exists t r u, decoded_text deck_id t /\ strip_prefix "Deck:" t = Some r /\
                   parse_str r = Some u /\ get_version u = Some Random)
  /\ (validate_deck_id deck_id = Err (DeckId InvalidBase64) <-> b64_decode deck_id = None)
  /\ (validate_deck_id deck_id = Err (DeckId InvalidFormat) <->
       exists bs, b64_decode deck_id = Some bs /\
         (from_utf8 bs = None \/
          exists t, from_utf8 bs = Some t /\ strip_prefix "Deck:" t = None))
  /\ (validate_deck_id deck_id = Err (DeckId InvalidUuid) <->
       exists t r, decoded_text deck_id t /\ strip_prefix "Deck:" t = Some r /\
                   parse_str r = None)
  /\ (validate_deck_id deck_id = Err (DeckId NotUuidV4) <->
       exists t r u, decoded_text deck_id t /\ strip_prefix "Deck:" t = Some r /\
                     parse_str r = Some u /\ get_version u <> Some Random)
  /\ (forall e, validate_deck_id deck_id = Err e -> exists k, e = DeckId k).
Proof.
  unfold validate_deck_id, starts_with.
  destruct (b64_decode deck_id) as [bs|] eqn:Hb; [|decoded_cases].
  destruct (from_utf8 bs) as [t|] eqn:Hu; [|decoded_cases].
  destruct (strip_prefix "Deck:" t) as [r|] eqn:Hp; [|decoded_cases].
  assert (Htrim : trim_start_matches t "Deck:" = r).
  { apply trim_deck_once; [exact Hp|]. apply Hsingle. exists bs; auto. }
  cbv beta iota zeta. rewrite Htrim.
  destruct (parse_str r) as [u|] eqn:Hparse; [|decoded_cases].
  destruct (is_random (get_version u)) eqn:Hv; cbv beta iota zeta.
  - apply is_random_spec in Hv. decoded_cases.
  - assert (Hnv : get_version u <> Some Random)
      by (intros Hr; apply is_random_spec in Hr; congruence).
    decoded_cases.
Qed.

Lemma test_deck_id_single_prefix :
  forall t, decoded_text TEST_DECK_ID t -> strip_prefix "Deck:Deck:" t = None.
Proof.
  intros t [bs [H1 H2]]. vm_compute in H1. injection H1 as <-.
  vm_compute in H2. injection H2 as <-. reflexivity.
Qed.

Lemma validate_deck_id_amended_witness :
  (forall t, decoded_text TEST_DECK_ID t -> strip_prefix "Deck:Deck:" t = None) /\
  validate_deck_id TEST_DECK_ID = Ok tt.
Proof.
  split; [exact test_deck_id_single_prefix|].
  apply (proj1 (validate_deck_id_amended TEST_DECK_ID test_deck_id_single_prefix)).
  exists "Deck:46f2b9ed-abf3-4bd8-a054-68dfa4a4203e"%string,
         "46f2b9ed-abf3-4bd8-a054-68dfa4a4203e"%string.
  eexists. split; [|split; [|split]].
  - eexists. split; vm_compute; reflexivity.
  - vm_compute. reflexivity.
  - vm_compute. reflexivity.
  - vm_compute. reflexivity.
Defined.

(** C4 fails as stated: "/w==" is valid base64 of the single byte 0xFF,
    which is not UTF-8, and "Tm90QURlY2s6MTIz" decodes to the UTF-8 text
    "NotADeck:123", which lacks the prefix; both get [InvalidFormat], so the
    UTF-8 check and the prefix check do not have distinct error kinds. *)
Lemma validate_deck_id_utf8_and_prefix_share_kind :
  b64_decode "/w==" = Some [Byte.xff] /\ from_utf8 [Byte.xff] = None /\
  validate_deck_id "/w==" = Err (DeckId InvalidFormat) /\
  decoded_text "Tm90QURlY2s6MTIz" "NotADeck:123" /\
  starts_with "NotADeck:123" "Deck:" = false /\
  validate_deck_id "Tm90QURlY2s6MTIz" = Err (DeckId InvalidFormat).
Proof.
  repeat split; try (vm_compute; reflexivity).
  exists (list_byte_of_string "NotADeck:123"). split; vm_compute; reflexivity.
Qed.

(** [trim_start_matches] removes every leading "Deck:", so an identifier
    decoding to "Deck:Deck:" followed by a version 4 UUID is accepted,
    although the text after the first prefix is not a UUID. *)
Lemma validate_deck_id_doubled_prefix :
  decoded_text
    "RGVjazpEZWNrOjQ2ZjJiOWVkLWFiZjMtNGJkOC1hMDU0LTY4ZGZhNGE0MjAzZQ=="
    "Deck:Deck:46f2b9ed-abf3-4bd8-a054-68dfa4a4203e" /\
  parse_str "Deck:46f2b9ed-abf3-4bd8-a054-68dfa4a4203e" = None /\
  validate_deck_id
    "RGVjazpEZWNrOjQ2ZjJiOWVkLWFiZjMtNGJkOC1hMDU0LTY4ZGZhNGE0MjAzZQ=="
  = Ok tt.
Proof.
  repeat split; try (vm_compute; reflexivity).
  eexists. split; vm_compute; reflexivity.
Qed.

Local Open Scope Z_scope.

(* ------------------------------------------------------------------ *)
(** ** The end-to-end scenario *)

(** C1.  Page 1 holds "hello" (New) and "world" (Known) and announces a
    next page with cursor "c1"; page 2 holds "hello" (Learning) and is the
    last.  A fresh run, in any environment, ends with [total_cards = 2]
    and [duplicates = 1]; [add_note] receives exactly the "hello" and
    "world" records of page 1, in that order, and never the second
    "hello".  The run then writes the output file once and returns what
    that write returns (an IO error included). *)
Theorem scenario_two_pages (k : nat) (w : World) :
  let '(r, p, _, tr) :=
    process (2 + k)
      (processor_output scenario_client "test-deck" (mkTestOutputBuilder [])
         "test_output.txt") w in
  total_cards (stats p) = 2 /\ duplicates (stats p) = 1 /\
  added_cards tr = [hello_new; world_known] /\
  map word (added_cards tr) = ["hello"; "world"]%string /\
  ~ In hello_learning (added_cards tr) /\
  r = Some (fst (test_write (File "test_output.txt") w)) /\
  writes tr = [(File "test_output.txt", fst (test_write (File "test_output.txt") w))].
Proof.
  unfold process.
  destruct (process_loop (2 + k) _ None 0) as [[o p1] tr] eqn:HL.
  vm_compute in HL. injection HL as <- <- <-.
  unfold write_output. cbn -[test_write].
  destruct (test_write (File "test_output.txt") w) as [res w'].
  vm_compute. repeat split.
  intros [Hc | [Hc | []]]; discriminate.
Qed.

(* ------------------------------------------------------------------ *)
(** ** The duplicate handler over a sequence of words *)

Lemma try_remember_result (h : DuplicateHandler) (w : string) :
  fst (try_remember h w) = bool_decide (w ∈ processed_words h).
Proof.
  unfold try_remember. case_decide as Hw.
  - by rewrite bool_decide_eq_true_2.
  - by rewrite bool_decide_eq_false_2.
Qed.

Lemma try_remember_words (h : DuplicateHandler) (w k : string) :
  k ∈ processed_words (snd (try_remember h w)) <-> k = w \/ k ∈ processed_words h.
Proof.
  unfold try_remember. case_decide as Hw; simpl; [|set_solver].
  split; [tauto|]. intros [-> | Hk]; auto.
Qed.

Lemma remember_all_words (h : DuplicateHandler) (ws : list string) (k : string) :
  k ∈ processed_words (snd (remember_all h ws)) <-> k ∈ ws \/ k ∈ processed_words h.
Proof.
  revert h; induction ws as [|w ws IH]; intros h; simpl.
  - set_solver.
  - destruct (try_remember h w) as [b h'] eqn:Ht.
    destruct (remember_all h' ws) as [bs h''] eqn:Hr. simpl.
    change h'' with (snd (bs, h'')). rewrite <- Hr, IH.
    change h' with (snd (b, h')). rewrite <- Ht, try_remember_words.
    rewrite elem_of_cons. tauto.
Qed.

Lemma remember_all_length (h : DuplicateHandler) (ws : list string) :
  length (fst (remember_all h ws)) = length ws.
Proof.
  revert h; induction ws as [|w ws IH]; intros h; simpl; [reflexivity|].
  destruct (try_remember h w) as [b h'].
  specialize (IH h'). destruct (remember_all h' ws). simpl in *. lia.
Qed.

Lemma remember_all_lookup (h : DuplicateHandler) (ws : list string) (i : nat) (w : string) :
  ws !! i = Some w ->
  fst (remember_all h ws) !! i
  = Some (bool_decide (w ∈ take i ws \/ w ∈ processed_words h)).
Proof.
  revert h i; induction ws as [|w0 ws IH]; intros h i Hi; [discriminate|].
  simpl. destruct (try_remember h w0) as [b h'] eqn:Ht.
  destruct (remember_all h' ws) as [bs h''] eqn:Hr. simpl.
  destruct i as [|j]; simpl in Hi |- *.
  - injection Hi as <-. f_equal.
    change b with (fst (b, h')). rewrite <- Ht, try_remember_result.
    apply bool_decide_ext. set_solver.
  - change bs with (fst (bs, h'')). rewrite <- Hr, (IH h' j Hi). f_equal.
    apply bool_decide_ext.
    change h' with (snd (b, h')). rewrite <- Ht, try_remember_words.
    rewrite elem_of_cons. tauto.
Qed.

(** C3.  Over any sequence of words given to [try_remember] from a fresh
    handler: the answer at position [i] is true exactly when the same word
    occurs before [i] (so the first occurrence answers false and every later
    one true); after any prefix, a word is in the set exactly when it occurs
    in that prefix; membership is equality of the byte strings, so "Hello"
    and "hello" are different words. *)
Theorem try_remember_sequence (ws : list string) :
  length (fst (remember_all DuplicateHandler_new ws)) = length ws /\
  (forall i w, ws !! i = Some w ->
     fst (remember_all DuplicateHandler_new ws) !! i = Some (bool_decide (w ∈ take i ws))) /\
  (forall i k, k ∈ processed_words (snd (remember_all DuplicateHandler_new (take i ws)))
               <-> k ∈ take i ws) /\
  (forall h w, fst (try_remember h w) = true <-> exists k, k ∈ processed_words h /\ k = w) /\
  fst (remember_all DuplicateHandler_new ["Hello"; "hello"; "Hello"]%string)
  = [false; false; true].
Proof.
  split; [apply remember_all_length|]. split.
  { intros i w Hi. rewrite (remember_all_lookup _ _ _ _ Hi). f_equal.
    apply bool_decide_ext. simpl. set_solver. }
  split.
  { intros i k. rewrite remember_all_words. simpl. set_solver. }
  split.
  { intros h w. rewrite try_remember_result, bool_decide_eq_true.
    split; [eauto | intros (k & Hk & ->); exact Hk]. }
  vm_compute. reflexivity.
Qed.

(* ------------------------------------------------------------------ *)
(** ** Order of the records handed to the sink *)

Lemma dedup_filter_app (s : gset string) (l1 l2 : list VocabularyCard) :
  dedup_filter s (l1 ++ l2)
  = dedup_filter s l1 ++ dedup_filter (list_to_set (map word l1) ∪ s) l2.
Proof.
  revert s; induction l1 as [|c l1 IH]; intros s; simpl.
  - f_equal. set_solver.
  - case_decide as Hc.
    + rewrite IH. do 2 f_equal. set_solver.
    + simpl. rewrite IH. do 3 f_equal. set_solver.
Qed.

Lemma added_cards_app (tr1 tr2 : list Event) :
  added_cards (tr1 ++ tr2) = added_cards tr1 ++ added_cards tr2.
Proof. induction tr1 as [|[] tr1 IH]; simpl; rewrite ?IH; reflexivity. Qed.

Lemma fetched_pages_app (tr1 tr2 : list Event) :
  fetched_pages (tr1 ++ tr2) = fetched_pages tr1 ++ fetched_pages tr2.
Proof.
  induction tr1 as [|[d|c r|w b|c' r'|d r'] tr1 IH]; simpl; rewrite ?IH; try reflexivity.
  destruct r; simpl; rewrite ?IH; reflexivity.
Qed.

Lemma fetch_calls_app (tr1 tr2 : list Event) :
  fetch_calls (tr1 ++ tr2) = (fetch_calls tr1 + fetch_calls tr2)%nat.
Proof. induction tr1 as [|[] tr1 IH]; simpl; rewrite ?IH; reflexivity. Qed.

Section PipelineFacts.
Context {C B : Type} `{DuocardsClientTrait C} `{OutputBuilder B}.

Lemma process_cards_order (p : Processor (C:=C) (B:=B)) (cards : list VocabularyCard) :
  let '(r, p', tr) := process_cards p cards in
  fetched_pages tr = [] /\ fetch_calls tr = O /\
  match r with
  | None =>
      added_cards tr = dedup_filter (processed_words (dedup p)) cards /\
      processed_words (dedup p') = list_to_set (map word cards) ∪ processed_words (dedup p) /\
      ~ failed_add tr
  | Some e =>
      added_cards tr `prefix_of` dedup_filter (processed_words (dedup p)) cards /\
      (exists card, In (EvAdd card (Err e)) tr)
  end.
Proof.
  revert p; induction cards as [|card rest IH]; intros p; simpl.
  - split; [reflexivity|]. split; [reflexivity|]. split; [reflexivity|].
    split; [set_solver|]. intros (c & e & []).
  - unfold try_remember. case_decide as Hw; simpl.
    + specialize (IH (set_stats (set_dedup p (dedup p)) (incr_duplicates (stats p)))).
      destruct (process_cards _ rest) as [[r p'] tr] eqn:Hr. simpl in IH |- *.
      destruct IH as (Hf & Hc & IH). split; [exact Hf|]. split; [exact Hc|].
      destruct r as [e|].
      * destruct IH as [IH (c & Hin)]. split; [exact IH|]. exists c. right. exact Hin.
      * destruct IH as (IH1 & IH2 & IH3). split; [exact IH1|]. split.
        { rewrite IH2. set_solver. }
        unfold failed_add in *. intros (c & e & [Heq | Hin]); [discriminate|]. apply IH3. eauto.
    + destruct (add_note (builder p) card) as [res b] eqn:Ha. destruct res as [added|e].
      * set (p3 := if added then _ else _).
        specialize (IH p3).
        destruct (process_cards p3 rest) as [[r p'] tr] eqn:Hr. simpl in IH |- *.
        assert (Hd : dedup p3 = mkDuplicateHandler ({[word card]} ∪ processed_words (dedup p)))
          by (subst p3; destruct added; reflexivity).
        rewrite Hd in IH. simpl in IH.
        destruct IH as (Hf & Hc & IH). split; [exact Hf|]. split; [exact Hc|].
        destruct r as [e|].
        -- destruct IH as [IH (c & Hin)]. split; [by apply prefix_cons|].
           exists c. right. right. exact Hin.
        -- destruct IH as (IH1 & IH2 & IH3). split; [by rewrite IH1|]. split.
           { rewrite IH2. set_solver. }
           unfold failed_add in *. intros (c & e & [Heq | [Heq | Hin]]); try discriminate. apply IH3. eauto.
      * simpl. split; [reflexivity|]. split; [reflexivity|]. split.
        -- apply prefix_cons, prefix_nil.
        -- exists card. right. left. reflexivity.
Qed.

Lemma failed_add_app (tr1 tr2 : list Event) :
  failed_add (tr1 ++ tr2) <-> failed_add tr1 \/ failed_add tr2.
Proof.
  unfold failed_add. split.
  - intros (c & e & Hin). apply in_app_or in Hin as [Hin|Hin]; eauto.
  - intros [(c & e & Hin)|(c & e & Hin)]; exists c, e; apply in_or_app; auto.
Qed.

Lemma process_loop_order (fuel : nat) (p : Processor (C:=C) (B:=B))
    (cursor : option string) (page_count : Z) :
  let '(o, p', tr) := process_loop fuel p cursor page_count in
  let cs := concat (map convert_to_vocabulary_cards (fetched_pages tr)) in
  added_cards tr `prefix_of` dedup_filter (processed_words (dedup p)) cs /\
  (~ failed_add tr -> added_cards tr = dedup_filter (processed_words (dedup p)) cs).
Proof.
  revert p cursor page_count; induction fuel as [|fuel IH]; intros p cursor page_count.
  - simpl. split; [apply prefix_nil | reflexivity].
  - simpl. destruct (should_continue (client p) (u32_wrap (page_count + 1))); simpl;
      [|split; [apply prefix_nil | reflexivity]].
    destruct (fetch_page (client p) (proc_deck_id p) cursor) as [[[response|e] c]|msg]; simpl;
      [|split; [apply prefix_nil | reflexivity] ..].
    pose proof (process_cards_order (set_client p c) (convert_to_vocabulary_cards response))
      as Hcards.
    destruct (process_cards (set_client p c) (convert_to_vocabulary_cards response))
      as [[[e|] p2] tr2] eqn:Hpc; simpl in Hcards |- *.
    + destruct Hcards as (Hf & _ & Hpre & (card & Hin)).
      rewrite Hf. simpl. rewrite app_nil_r. split; [exact Hpre|].
      intros Hno. exfalso. apply Hno. exists card, e. right. exact Hin.
    + destruct Hcards as (Hf & _ & Heq & Hset & Hno).
      destruct (has_next_page (page_info response)); simpl.
      * specialize (IH p2 (end_cursor (page_info response)) (u32_wrap (page_count + 1))).
        destruct (process_loop fuel p2 _ _) as [[o p3] tr3]. simpl.
        rewrite added_cards_app, fetched_pages_app, Hf. simpl.
        rewrite dedup_filter_app, Heq, <- Hset.
        destruct IH as [IHpre IHeq]. split.
        -- by apply prefix_app.
        -- intros Hfail. f_equal. apply IHeq. intros Hf3. apply Hfail.
           destruct Hf3 as (card & e & Hin). exists card, e. right.
           apply in_or_app. right. exact Hin.
      * rewrite Hf. simpl. rewrite app_nil_r, Heq.
        split; [reflexivity | intros _; reflexivity].
Qed.

End PipelineFacts.

(* ------------------------------------------------------------------ *)
(** ** A failure ends the run *)

Section PipelineFacts2.
Context {C B : Type} `{DuocardsClientTrait C} `{OutputBuilder B}.

Lemma no_failure_app (tr1 tr2 : list Event) :
  no_failure (tr1 ++ tr2) <-> no_failure tr1 /\ no_failure tr2.
Proof.
  unfold no_failure. split.
  - intros Hn. split; intros ev Hin; apply Hn, in_or_app; auto.
  - intros [H1 H2] ev Hin. apply in_app_or in Hin as [Hin|Hin]; auto.
Qed.

Lemma no_write_app (tr1 tr2 : list Event) :
  no_write (tr1 ++ tr2) <-> no_write tr1 /\ no_write tr2.
Proof.
  unfold no_write. split.
  - intros Hn. split; intros d r Hin; eapply Hn, in_or_app; eauto.
  - intros [H1 H2] d r Hin. apply in_app_or in Hin as [Hin|Hin]; [eapply H1 | eapply H2]; eauto.
Qed.

Lemma process_cards_failure (p : Processor (C:=C) (B:=B)) (cards : list VocabularyCard) :
  let '(r, p', tr) := process_cards p cards in
  no_write tr /\
  match r with
  | Some e => exists tr0 ev, tr = tr0 ++ [ev] /\ is_failure ev = Some e /\ no_failure tr0
  | None => no_failure tr
  end.
Proof.
  revert p; induction cards as [|card rest IH]; intros p; simpl.
  - split; [intros ? ? [] | intros ? []].
  - destruct (try_remember (dedup p) (word card)) as [[] d]; simpl.
    + match goal with |- context [process_cards ?q rest] =>
        specialize (IH q); destruct (process_cards q rest) as [[r p'] tr] end.
      destruct IH as [Hw IH].
      split; [intros dd rr [Heq|Hin]; [discriminate | eapply Hw; eauto]|].
      destruct r as [e|].
      * destruct IH as (tr0 & ev & -> & Hev & Hn).
        exists (EvRemember (word card) true :: tr0), ev. split; [reflexivity|].
        split; [exact Hev|]. intros ev' [<-|Hin]; [reflexivity | auto].
      * intros ev' [<-|Hin]; [reflexivity | auto].
    + destruct (add_note (builder p) card) as [[added|e] b]; simpl.
      * match goal with |- context [process_cards ?q rest] =>
          specialize (IH q); destruct (process_cards q rest) as [[r p'] tr] end.
        destruct IH as [Hw IH].
        split; [intros dd rr [Heq|[Heq|Hin]]; [discriminate | discriminate | eapply Hw; eauto]|].
        destruct r as [e|].
        -- destruct IH as (tr0 & ev & -> & Hev & Hn).
           exists (EvRemember (word card) false :: EvAdd card (Ok added) :: tr0), ev.
           split; [reflexivity|]. split; [exact Hev|].
           intros ev' [<-|[<-|Hin]]; [reflexivity | reflexivity | auto].
        -- intros ev' [<-|[<-|Hin]]; [reflexivity | reflexivity | auto].
      * split; [intros dd rr [Heq|[Heq|[]]]; discriminate|].
        exists [EvRemember (word card) false], (EvAdd card (Err e)).
        split; [reflexivity|]. split; [reflexivity|]. intros ev' [<-|[]]. reflexivity.
Qed.

Lemma process_loop_failure (fuel : nat) (p : Processor (C:=C) (B:=B))
    (cursor : option string) (page_count : Z) :
  let '(o, p', tr) := process_loop fuel p cursor page_count in
  no_write tr /\
  match o with
  | LoopFailed e => exists tr0 ev, tr = tr0 ++ [ev] /\ is_failure ev = Some e /\ no_failure tr0
  | _ => no_failure tr
  end.
Proof.
  revert p cursor page_count; induction fuel as [|fuel IH]; intros p cursor page_count.
  - simpl. split; [intros ? ? [] | intros ? []].
  - simpl. destruct (should_continue (client p) (u32_wrap (page_count + 1))); simpl;
      [|split; [intros ? ? [] | intros ? []]].
    destruct (fetch_page (client p) (proc_deck_id p) cursor) as [[[response|e] c]|msg]; simpl.
    3:{ split; [intros ? ? [] | intros ? []]. }
    2:{ split; [intros ? ? [Heq|[]]; discriminate|].
        exists [], (EvFetch cursor (Err e)). split; [reflexivity|]. split; [reflexivity|].
        intros ? []. }
    pose proof (process_cards_failure (set_client p c) (convert_to_vocabulary_cards response))
      as Hcards.
    destruct (process_cards (set_client p c) (convert_to_vocabulary_cards response))
      as [[[e|] p2] tr2]; destruct Hcards as [Hw Hcards].
    + split; [intros dd rr [Heq|Hin]; [discriminate | eapply Hw; eauto]|].
      destruct Hcards as (tr0 & ev & -> & Hev & Hn).
      exists (EvFetch cursor (Ok response) :: tr0), ev. split; [reflexivity|].
      split; [exact Hev|]. intros ev' [<-|Hin]; [reflexivity | auto].
    + destruct (has_next_page (page_info response)); simpl.
      * specialize (IH p2 (end_cursor (page_info response)) (u32_wrap (page_count + 1))).
        destruct (process_loop fuel p2 _ _) as [[o p3] tr3]. destruct IH as [Hw3 IH].
        split.
        { intros dd rr [Heq|Hin]; [discriminate|].
          apply in_app_or in Hin as [Hin|Hin]; [eapply Hw | eapply Hw3]; eauto. }
        destruct o as [|e| |].
        -- intros ev' [<-|Hin]; [reflexivity|].
           apply in_app_or in Hin as [Hin|Hin]; auto.
        -- destruct IH as (tr0 & ev & -> & Hev & Hn).
           exists (EvFetch cursor (Ok response) :: tr2 ++ tr0), ev.
           split; [by rewrite app_comm_cons, app_assoc|]. split; [exact Hev|].
           intros ev' [<-|Hin]; [reflexivity|].
           apply in_app_or in Hin as [Hin|Hin]; auto.
        -- intros ev' [<-|Hin]; [reflexivity|].
           apply in_app_or in Hin as [Hin|Hin]; auto.
        -- intros ev' [<-|Hin]; [reflexivity|].
           apply in_app_or in Hin as [Hin|Hin]; auto.
      * split; [intros dd rr [Heq|Hin]; [discriminate | eapply Hw; eauto]|].
        intros ev' [<-|Hin]; [reflexivity | auto].
Qed.

End PipelineFacts2.

Section PipelineClaims.
Context {C B : Type} `{DuocardsClientTrait C} `{OutputBuilder B}.

(** C2: in every run of a fresh processor, the cards handed to the sink's
    [add_note] are the cards of the fetched pages, concatenated in fetch
    order, with every card whose word occurred earlier in the stream
    removed and the order of the others kept.  When an [add_note] call
    fails the run stops there, and the cards handed over are a prefix of
    that sequence.  This holds for every fuel, so also for every finite
    prefix of a run that does not stop. *)
Theorem process_add_order (fuel : nat) (c : C) (deck_id : string) (b : B)
    (path : string) (w : World) :
  let '(_, _, _, tr) := process fuel (processor_output c deck_id b path) w in
  let cs := concat (map convert_to_vocabulary_cards (fetched_pages tr)) in
  added_cards tr `prefix_of` dedup_filter ∅ cs /\
  (~ failed_add tr -> added_cards tr = dedup_filter ∅ cs).
Proof.
  unfold process.
  pose proof (process_loop_order fuel (processor_output c deck_id b path) None 0) as Hord.
  destruct (process_loop fuel (processor_output c deck_id b path) None 0) as [[o p1] tr].
  simpl in Hord. destruct o as [|e| |]; [|exact Hord ..].
  unfold write_output. destruct (write (builder p1) _ w) as [r w'].
  rewrite added_cards_app, fetched_pages_app, app_nil_r, app_nil_r. split.
  - apply Hord.
  - intros Hn. apply Hord. intros Hf. apply Hn, failed_add_app. left. exact Hf.
Qed.

(** C6: when a [fetch_page] or an [add_note] call fails, that call is
    the last event of the run: no later fetch, no later word handed to
    the duplicate handler or the sink, no retry and no call of [write];
    the run returns that error and leaves the output untouched. *)
Theorem process_failure_is_final (fuel : nat) (p : Processor (C:=C) (B:=B)) (w : World) :
  let '(r, _, w', tr) := process fuel p w in
  forall tr1 ev tr2 e, tr = tr1 ++ ev :: tr2 -> is_failure ev = Some e ->
  tr2 = [] /\ r = Some (Err e) /\ w' = w /\ no_write tr.
Proof.
  unfold process.
  pose proof (process_loop_failure fuel p None 0) as Hf.
  destruct (process_loop fuel p None 0) as [[o p1] tr]. destruct Hf as [Hw Hf].
  assert (Hnf : forall l tr1 ev tr2 e, no_failure l -> l = tr1 ++ ev :: tr2 ->
            is_failure ev = Some e -> False).
  { intros l tr1 ev tr2 e Hn -> Hev. rewrite (Hn ev) in Hev; [discriminate|].
    apply in_or_app; right; left; reflexivity. }
  destruct o as [|e0| |].
  - unfold write_output. destruct (write (builder p1) _ w) as [r w'].
    intros tr1 ev tr2 e Htr Hev. exfalso.
    destruct tr2 as [|x tr2' _] using rev_ind.
    + apply app_inj_tail in Htr as [_ <-]. discriminate.
    + rewrite app_comm_cons, app_assoc in Htr.
      apply app_inj_tail in Htr as [Htr _]. eauto.
  - intros tr1 ev tr2 e Htr Hev.
    destruct Hf as (tr0 & ev0 & -> & Hev0 & Hn).
    destruct tr2 as [|x tr2' _] using rev_ind.
    + apply app_inj_tail in Htr as [-> ->].
      rewrite Hev0 in Hev. injection Hev as ->. auto.
    + exfalso. rewrite app_comm_cons, app_assoc in Htr.
      apply app_inj_tail in Htr as [-> _]. eauto.
  - intros tr1 ev tr2 e Htr Hev. exfalso. eauto.
  - intros tr1 ev tr2 e Htr Hev. exfalso. eauto.
Qed.

(** C7: for a card whose word the duplicate handler has not seen, when
    [add_note] answers [Ok added], the run goes on with the rest of the
    page exactly as from a processor whose stats are the old ones with
    [total_cards] incremented when [added] is true and left alone when it
    is false (the sink's own rejection), [duplicates] being unchanged in
    both cases; no error is raised. *)
Theorem process_cards_sink_result (p : Processor (C:=C) (B:=B)) (card : VocabularyCard)
    (rest : list VocabularyCard) (added : bool) (b' : B)
    (Hnew : word card ∉ processed_words (dedup p))
    (Hadd : add_note (builder p) card = (Ok added, b')) :
  exists p1,
    stats p1 = (if added then incr_total_cards (stats p) else stats p) /\
    builder p1 = b' /\
    process_cards p (card :: rest) =
      (let '(r, p', tr) := process_cards p1 rest in
       (r, p', EvRemember (word card) false :: EvAdd card (Ok added) :: tr)).
Proof.
  simpl. unfold try_remember. rewrite decide_False by exact Hnew. simpl.
  rewrite Hadd.
  eexists. split; [|split; [|reflexivity]]; destruct added; reflexivity.
Qed.

End PipelineClaims.

Lemma process_cards_sink_result_witness :
  (word hello_learning ∉ processed_words (dedup sink_rejects_processor)) /\
  add_note (builder sink_rejects_processor) hello_learning
    = (Ok false, mkTestOutputBuilder [hello_new]) /\
  exists p1,
    stats p1 = stats sink_rejects_processor /\
    builder p1 = mkTestOutputBuilder [hello_new] /\
    process_cards sink_rejects_processor [hello_learning; world_known] =
      (let '(r, p', tr) := process_cards p1 [world_known] in
       (r, p', EvRemember (word hello_learning) false :: EvAdd hello_learning (Ok false) :: tr)).
Proof.
  assert (Hnew : word hello_learning ∉ processed_words (dedup sink_rejects_processor))
    by (simpl; set_solver).
  split; [exact Hnew|]. split; [reflexivity|].
  exact (process_cards_sink_result sink_rejects_processor hello_learning [world_known]
           false (mkTestOutputBuilder [hello_new]) Hnew eq_refl).
Defined.

(* ------------------------------------------------------------------ *)
(** ** The page limit *)

Lemma fetch_calls_repeat_app (k : nat) (ev : Event) (tr : list Event) :
  (exists cur r, ev = EvFetch cur r) ->
  fetch_calls (repeat ev k ++ tr) = (k + fetch_calls tr)%nat.
Proof.
  intros (cur & r & ->). induction k as [|k IH]; simpl; [reflexivity|]. rewrite IH. reflexivity.
Qed.

Section PageLimit.
Context {B : Type} `{OutputBuilder B}.

Lemma set_client_set_client (p : Processor (C:=TestDuocardsClient) (B:=B)) c1 c2 :
  set_client (set_client p c1) c2 = set_client p c2.
Proof. destruct p; reflexivity. Qed.

Lemma set_client_client (p : Processor (C:=TestDuocardsClient) (B:=B)) :
  set_client p (client p) = p.
Proof. destruct p; reflexivity. Qed.

(** One round of the loop on a page that reports further pages. *)
Lemma process_loop_more_page (f : nat) (p : Processor (C:=TestDuocardsClient) (B:=B))
    (pc : Z) (rest : list DuocardsResponse) (lim : option Z) :
  client p = mkTestDuocardsClient (more_page :: rest) lim ->
  should_continue_limit lim (u32_wrap (pc + 1)) = true ->
  process_loop (S f) p None pc =
    (let '(o, p', tr) :=
       process_loop f (set_client p (mkTestDuocardsClient rest lim)) None (u32_wrap (pc + 1)) in
     (o, p', EvFetch None (Ok more_page) :: tr)).
Proof.
  intros Hc Hs. cbn [process_loop]. rewrite Hc.
  cbn [should_continue TestDuocardsClient_client test_page_limit]. rewrite Hs.
  cbn [negb fetch_page TestDuocardsClient_client responses test_page_limit].
  cbn [convert_to_vocabulary_cards more_page create_test_response convert_edges edges map
       process_cards page_info has_next_page negb end_cursor].
  reflexivity.
Qed.

(** [k] rounds below the wrap-around of the counter. *)
Lemma process_loop_more_pages (k : nat) :
  forall (f : nat) (p : Processor (C:=TestDuocardsClient) (B:=B)) (pc : Z)
    (rest : list DuocardsResponse) (lim : option Z),
  client p = mkTestDuocardsClient (repeat more_page k ++ rest) lim ->
  0 <= pc -> pc + Z.of_nat k <= u32_max ->
  (forall i : nat, (i < k)%nat -> should_continue_limit lim (pc + Z.of_nat i + 1) = true) ->
  process_loop (k + f) p None pc =
    (let '(o, p', tr) :=
       process_loop f (set_client p (mkTestDuocardsClient rest lim)) None (pc + Z.of_nat k) in
     (o, p', repeat (EvFetch None (Ok more_page)) k ++ tr)).
Proof.
  unfold u32_max.
  induction k as [|k IH]; intros f p pc rest lim Hc Hpc Hk Hs.
  - simpl in Hc |- *. rewrite <- Hc, set_client_client, Z.add_0_r.
    destruct (process_loop f p None pc) as [[o p'] tr]. reflexivity.
  - assert (Hw : u32_wrap (pc + 1) = pc + 1)
      by (unfold u32_wrap; apply Z.mod_small; lia).
    change (S k + f)%nat with (S (k + f)).
    rewrite (process_loop_more_page (k + f) p pc (repeat more_page k ++ rest) lim Hc);
      [|rewrite Hw; specialize (Hs O); simpl in Hs; rewrite Z.add_0_r in Hs; apply Hs; lia].
    rewrite Hw.
    rewrite (IH f (set_client p (mkTestDuocardsClient (repeat more_page k ++ rest) lim))
               (pc + 1) rest lim); [| reflexivity | lia | lia |].
    + rewrite set_client_set_client.
      replace (pc + 1 + Z.of_nat k) with (pc + Z.of_nat (S k)) by lia.
      destruct (process_loop f _ None (pc + Z.of_nat (S k))) as [[o p'] tr]. reflexivity.
    + intros i Hi. replace (pc + 1 + Z.of_nat i + 1) with (pc + Z.of_nat (S i) + 1) by lia.
      apply Hs. lia.
Qed.

(** The cards of a page never make [process_cards] fail when [add_note]
    never returns an error; the client is left alone. *)
Lemma process_cards_no_add_error (p : Processor (C:=TestDuocardsClient) (B:=B))
    (cs : list VocabularyCard)
    (Hadd : forall b' card, exists added b'', add_note b' card = (Ok added, b'')) :
  let '(r, p', _) := process_cards p cs in r = None /\ client p' = client p.
Proof.
  revert p; induction cs as [|card rest IH]; intros p; simpl; [auto|].
  destruct (try_remember (dedup p) (word card)) as [[|] d]; simpl.
  - match goal with |- context [process_cards ?q rest] =>
      specialize (IH q); destruct (process_cards q rest) as [[r p'] tr] end.
    exact IH.
  - destruct (Hadd (builder p) card) as (added & b'' & Hb). rewrite Hb. simpl.
    destruct added;
      match goal with |- context [process_cards ?q rest] =>
        specialize (IH q); destruct (process_cards q rest) as [[r p'] tr] end;
      exact IH.
Qed.

(** [length pages] rounds over pages that all report further pages,
    below the wrap-around of the counter. *)
Lemma process_loop_pages (pages : list DuocardsResponse) :
  forall (f : nat) (p : Processor (C:=TestDuocardsClient) (B:=B)) (pc : Z)
    (cursor : option string) (rest : list DuocardsResponse) (lim : option Z),
  client p = mkTestDuocardsClient (pages ++ rest) lim ->
  0 <= pc -> pc + Z.of_nat (length pages) <= u32_max ->
  (forall i : nat, (i < length pages)%nat ->
     should_continue_limit lim (pc + Z.of_nat i + 1) = true) ->
  Forall (fun r => has_next_page (page_info r) = true) pages ->
  (forall b' card, exists added b'', add_note b' card = (Ok added, b'')) ->
  exists p1 cursor' tr1,
    client p1 = mkTestDuocardsClient rest lim /\ fetch_calls tr1 = length pages /\
    process_loop (length pages + f) p cursor pc =
      (let '(o, p', tr) := process_loop f p1 cursor' (pc + Z.of_nat (length pages)) in
       (o, p', tr1 ++ tr)).
Proof.
  induction pages as [|pg pages IH]; intros f p pc cursor rest lim Hc Hpc Hk Hs Hnext Hadd.
  - exists p, cursor, []. split; [exact Hc|]. split; [reflexivity|].
    simpl. rewrite Z.add_0_r. destruct (process_loop f p cursor pc) as [[o p'] tr].
    reflexivity.
  - simpl length in Hk, Hs |- *. inversion Hnext as [|? ? Hpg Hpages]; subst.
    assert (Hw : u32_wrap (pc + 1) = pc + 1)
      by (unfold u32_wrap, u32_max in *; apply Z.mod_small; lia).
    assert (Hs0 : should_continue_limit lim (pc + 1) = true)
      by (specialize (Hs O ltac:(lia)); rewrite Z.add_0_r in Hs; exact Hs).
    change (S (length pages) + f)%nat with (S (length pages + f)).
    cbn [process_loop]. rewrite Hc.
    cbn [should_continue TestDuocardsClient_client test_page_limit]. rewrite Hw, Hs0.
    cbn [negb fetch_page TestDuocardsClient_client responses test_page_limit app].
    pose proof (process_cards_no_add_error
                  (set_client p (mkTestDuocardsClient (pages ++ rest) lim))
                  (convert_to_vocabulary_cards pg) Hadd) as Hpc2.
    pose proof (process_cards_order
                  (set_client p (mkTestDuocardsClient (pages ++ rest) lim))
                  (convert_to_vocabulary_cards pg)) as Hord.
    destruct (process_cards (set_client p (mkTestDuocardsClient (pages ++ rest) lim))
                (convert_to_vocabulary_cards pg)) as [[r2 p2] tr2].
    destruct Hpc2 as [-> Hc2]. destruct Hord as (_ & Hcalls & _).
    rewrite Hpg. cbn [negb].
    destruct (IH f p2 (pc + 1) (end_cursor (page_info pg)) rest lim)
      as (p1 & cursor' & tr1 & Hc1 & Hf1 & Heq).
    + rewrite Hc2. reflexivity.
    + lia.
    + lia.
    + intros i Hi. replace (pc + 1 + Z.of_nat i + 1) with (pc + Z.of_nat (S i) + 1) by lia.
      apply Hs. lia.
    + exact Hpages.
    + exact Hadd.
    + exists p1, cursor', (EvFetch cursor (Ok pg) :: tr2 ++ tr1).
      split; [exact Hc1|]. split.
      { simpl. rewrite fetch_calls_app, Hcalls, Hf1. reflexivity. }
      rewrite Heq. replace (pc + 1 + Z.of_nat (length pages))
        with (pc + Z.of_nat (S (length pages))) by lia.
      destruct (process_loop f p1 cursor' (pc + Z.of_nat (S (length pages))))
        as [[o p'] tr].
      cbn [app]. rewrite <- app_assoc. reflexivity.
Qed.

(** Below [u32::MAX] the limit holds: with a limit [n], a client whose
    first [n] pages all report further pages, and a builder whose
    [add_note] never returns an error, the loop fetches exactly [n]
    pages and then stops normally. *)
Lemma page_limit_below_u32_max (pages rest : list DuocardsResponse) (f : nat)
    (b : B) (deck_id path : string)
    (Hn : Z.of_nat (length pages) < u32_max)
    (Hnext : Forall (fun r => has_next_page (page_info r) = true) pages)
    (Hadd : forall b' card, exists added b'', add_note b' card = (Ok added, b'')) :
  let c := mkTestDuocardsClient (pages ++ rest) (Some (Z.of_nat (length pages))) in
  let '(o, _, tr) :=
    process_loop (length pages + S f) (processor_output c deck_id b path) None 0 in
  o = LoopDone /\ fetch_calls tr = length pages.
Proof.
  intros c.
  destruct (process_loop_pages pages (S f) (processor_output c deck_id b path) 0 None rest
              (Some (Z.of_nat (length pages))))
    as (p1 & cursor' & tr1 & Hc1 & Hf1 & ->);
    [reflexivity | lia | lia | | exact Hnext | exact Hadd |].
  - intros i Hi. simpl. apply Z.leb_le. lia.
  - cbn [process_loop]. rewrite Hc1.
    cbn [should_continue TestDuocardsClient_client test_page_limit should_continue_limit].
    replace (u32_wrap (0 + Z.of_nat (length pages) + 1)) with (Z.of_nat (length pages) + 1)
      by (unfold u32_wrap, u32_max in *; rewrite Z.mod_small; lia).
    replace (Z.of_nat (length pages) + 1 <=? Z.of_nat (length pages)) with false
      by (symmetry; apply Z.leb_gt; lia).
    split; [reflexivity|]. rewrite fetch_calls_app. simpl. lia.
Qed.

End PageLimit.

Section PageLimitOverrun.
Context {B : Type} `{OutputBuilder B}.

(** C5 (code bug): with the limit [u32::MAX] (accepted by
    [validate_page_limit]) and a client whose every page reports further
    pages, the run does not stop after [u32::MAX] fetches.  [page_count]
    is a [u32]; after [u32::MAX] rounds [page_count += 1] wraps to 0 (in a
    build without overflow checks), [should_continue 0] holds, and a
    further page is fetched: after [u32::MAX + 1] rounds the run is still
    going and [u32::MAX + 1] fetches have been made. *)
Theorem page_limit_u32_max_overrun (b : B) (deck_id path : string) (w : World) :
  let c := mkTestDuocardsClient (repeat more_page (Z.to_nat u32_max + 1)) (Some u32_max) in
  let '(r, _, _, tr) := process (Z.to_nat u32_max + 1) (processor_output c deck_id b path) w in
  r = None /\ fetch_calls tr = (Z.to_nat u32_max + 1)%nat.
Proof.
  cbv zeta. unfold process.
  assert (HK : Z.of_nat (Z.to_nat u32_max) = u32_max)
    by (apply Z2Nat.id; unfold u32_max; lia).
  remember (Z.to_nat u32_max) as K eqn:HKdef. clear HKdef.
  rewrite (process_loop_more_pages K 1
             (processor_output (mkTestDuocardsClient (repeat more_page (K + 1)) (Some u32_max))
                deck_id b path) 0 [more_page] (Some u32_max));
    [| simpl; rewrite repeat_app; reflexivity | lia | lia |].
  2:{ intros i Hi. simpl. apply Z.leb_le. lia. }
  rewrite (process_loop_more_page 0 _ (0 + Z.of_nat K) [] (Some u32_max)); [| reflexivity |].
  2:{ rewrite HK. vm_compute. reflexivity. }
  cbn [process_loop].
  split; [reflexivity|].
  rewrite fetch_calls_repeat_app by eauto. simpl. lia.
Qed.

End PageLimitOverrun.

(* ------------------------------------------------------------------ *)
(** ** The sinks *)

Section AnkiClaims.
Variables Deck Model Note : Type.
Variable Note_new : Model -> list string -> result Note string.
Variable Note_tags : Note -> list string -> Note.
Variable Deck_add_note : Deck -> Note -> Deck.
Variable Deck_write_to_file : Deck -> string -> World -> result unit string * World.

(** C8: whatever the Anki builder holds, writing it to a stream fails
    with [AnkiOutputNotSupported] and leaves the world (the stream
    included) as it was; writing it to a file never fails with that
    error. *)
Theorem anki_write_writer_unsupported (b : AnkiPackageBuilder Deck Model) (w : World) :
  anki_write Deck Model Deck_write_to_file b Writer w = (Err AnkiOutputNotSupported, w) /\
  forall path : string,
    fst (anki_write Deck Model Deck_write_to_file b (File path) w) <> Err AnkiOutputNotSupported.
Proof.
  split; [reflexivity|]. intros path. simpl.
  destruct (path_to_str path) as [path_str|]; [|discriminate].
  destruct (Deck_write_to_file (deck Deck Model b) path_str w) as [[u|e] w']; discriminate.
Qed.

(** A new word whose note genanki builds is stored and recorded, and
    [add_note] returns [true]. *)
Lemma anki_add_note_new (b : AnkiPackageBuilder Deck Model) (card : VocabularyCard) (note : Note) :
  word card ∉ existing_words Deck Model b ->
  to_anki_note Model Note Note_new Note_tags (vocabulary_note_of_card card) (model Deck Model b)
    = Ok note ->
  anki_add_note Deck Model Note Note_new Note_tags Deck_add_note b card =
    (Ok true, mkAnkiPackageBuilder Deck Model (Deck_add_note (deck Deck Model b) note)
                (model Deck Model b) ({[word card]} ∪ existing_words Deck Model b)).
Proof.
  intros Hnew Hnote. unfold anki_add_note. rewrite decide_False by exact Hnew.
  rewrite Hnote. reflexivity.
Qed.

(** A new word whose note genanki refuses is an error, the builder unchanged. *)
Lemma anki_add_note_refused (b : AnkiPackageBuilder Deck Model) (card : VocabularyCard) (e : string) :
  word card ∉ existing_words Deck Model b ->
  to_anki_note Model Note Note_new Note_tags (vocabulary_note_of_card card) (model Deck Model b)
    = Err e ->
  anki_add_note Deck Model Note Note_new Note_tags Deck_add_note b card = (Err (Other e), b).
Proof.
  intros Hnew Hnote. unfold anki_add_note. rewrite decide_False by exact Hnew.
  rewrite Hnote. reflexivity.
Qed.

(** A word already recorded: [false], the builder unchanged. *)
Lemma anki_add_note_again (b : AnkiPackageBuilder Deck Model) (card : VocabularyCard) :
  word card ∈ existing_words Deck Model b ->
  anki_add_note Deck Model Note Note_new Note_tags Deck_add_note b card = (Ok false, b).
Proof. intros Hin. unfold anki_add_note. rewrite decide_True by exact Hin. reflexivity. Qed.

End AnkiClaims.

(** The JSON builder over any sequence of cards: a card gets [true]
    exactly when its word is neither recorded yet nor the word of an
    earlier card of the sequence, and [false] otherwise; the builder
    keeps the first card of each new word, in order, and records every
    word. *)
Theorem json_add_note_sequence (b : JsonOutputBuilder) (cs : list VocabularyCard) :
  let '(rs, b') := json_add_all b cs in
  length rs = length cs /\
  (forall i card, cs !! i = Some card ->
     rs !! i = Some (Ok (bool_decide ((word card ∉ json_existing_words b) /\
                                      (word card ∉ map word (take i cs)))))) /\
  cards b' = cards b ++ dedup_filter (json_existing_words b) cs /\
  json_existing_words b' = list_to_set (map word cs) ∪ json_existing_words b.
Proof.
  revert b; induction cs as [|c rest IH]; intros b.
  - simpl. split; [reflexivity|]. split; [intros i card Hi; discriminate|].
    rewrite app_nil_r. split; [reflexivity|]. apply set_eq. intros x. set_solver.
  - cbn [json_add_all]. unfold json_add_note at 1.
    destruct (decide (word c ∈ json_existing_words b)) as [Hin|Hnin].
    + specialize (IH b). destruct (json_add_all b rest) as [rs b2].
      destruct IH as (Hl & Hlk & Hc & He). split; [simpl; f_equal; exact Hl|]. split.
      * intros [|j] card Hi; simpl in Hi |- *.
        -- injection Hi as <-. rewrite bool_decide_eq_false_2; [reflexivity|]. tauto.
        -- refine (eq_trans (Hlk j card Hi) _). do 2 f_equal. apply bool_decide_ext.
           rewrite not_elem_of_cons. split; [|tauto].
           intros [H1 H2]. repeat split; auto. intros Heq. rewrite Heq in H1. contradiction.
      * split; [rewrite Hc; simpl; rewrite decide_True by exact Hin; reflexivity|].
        rewrite He. apply set_eq. intros x. simpl. set_solver.
    + specialize (IH (mkJsonOutputBuilder (cards b ++ [c]) ({[word c]} ∪ json_existing_words b))).
      destruct (json_add_all _ rest) as [rs b2].
      destruct IH as (Hl & Hlk & Hc & He). split; [simpl; f_equal; exact Hl|]. split.
      * intros [|j] card Hi; simpl in Hi |- *.
        -- injection Hi as <-. rewrite bool_decide_eq_true_2; [reflexivity|].
           split; [exact Hnin|]. simpl. apply not_elem_of_nil.
        -- refine (eq_trans (Hlk j card Hi) _). do 2 f_equal. apply bool_decide_ext. simpl.
           rewrite not_elem_of_cons, not_elem_of_union, not_elem_of_singleton. tauto.
      * split.
        -- rewrite Hc. simpl. rewrite decide_False by exact Hnin. rewrite <- app_assoc.
           reflexivity.
        -- rewrite He. apply set_eq. intros x. simpl. set_solver.
Qed.


(* ------------------------------------------------------------------ *)
(** ** [main] *)

Section MainClaims.
Context {C : Type} `{DuocardsClientTrait C}.
Context {BA BJ : Type} `{OutputBuilder BA} `{OutputBuilder BJ}.
Variable client_new : result C string.
Variable with_page_limit : C -> Z -> C.
Variable anki_builder_new : BA.
Variable json_builder_new : BJ.

(** C9: [main] checks the deck id before any fetch.  A run that fetches
    at all has passed the check, which is its first event; a run whose
    deck id fails the check makes no fetch, returns an error, and leaves
    the world unchanged. *)
Theorem main_validates_before_fetch (fuel : nat) (args : Args) (w : World) :
  let '(r, w', tr) :=
    main_run client_new with_page_limit anki_builder_new json_builder_new fuel args w in
  (fetch_calls tr <> 0%nat ->
     validate_deck_id (arg_deck_id args) = Ok tt /\
     exists tr', tr = EvValidate (arg_deck_id args) :: tr') /\
  (forall e, validate_deck_id (arg_deck_id args) = Err e ->
     fetch_calls tr = 0%nat /\ w' = w /\ exists e', r = Some (Err e')).
Proof.
  unfold main_run.
  destruct (negb _ && negb _ && negb _).
  { split; [simpl; congruence|]. intros e _. eauto. }
  destruct client_new as [client0|e0].
  2:{ split; [simpl; congruence|]. intros e _. eauto. }
  destruct (validate_deck_id (arg_deck_id args)) as [[]|e0] eqn:Hv.
  2:{ split; [simpl; congruence|]. intros e _. eauto. }
  destruct (anki_file args) as [path|]; [|destruct (json args)];
    match goal with |- context [process ?f ?p ?w0] =>
      destruct (process f p w0) as [[[r p'] w'] tr] end;
    (split; [intros _; split; [reflexivity | eauto] | intros e He; discriminate]).
Qed.

End MainClaims.

(** ** Witnesses of the supporting lemmas *)



(* ------------------------------------------------------------------ *)
(** ** [DuocardsClient::fetch_page] *)

Lemma client_validate_deck_id_same (deck_id : string) :
  client_validate_deck_id deck_id = validate_deck_id deck_id.
Proof. reflexivity. Qed.

Section DuocardsHttpFacts.
Variable QUERY_GRAPHQL : string.
Variable to_string_pretty : CardsQuery -> result string DuoloadError.
Variable send : string -> CardsQuery -> result HttpResponse DuoloadError.
Variable response_text : HttpResponse -> result string DuoloadError.
Variable response_json : HttpResponse -> result DuocardsResponse DuoloadError.
Variable status_display : Z -> string.

(** [fetch_page] sends no request for an identifier [validate_deck_id]
    rejects and returns that error; otherwise it sends at most one
    request, the query for the identifier and the cursor with page size
    30, and it returns a page only after a 2xx answer whose body parses. *)
Theorem client_fetch_page_contract (base_url deck_id : string) (cursor : option string) :
  let '(r, sent) := client_fetch_page QUERY_GRAPHQL to_string_pretty send response_text
                      response_json status_display base_url deck_id cursor in
  let q := CardsQuery_new QUERY_GRAPHQL deck_id DEFAULT_PAGE_SIZE cursor in
  (forall e, validate_deck_id deck_id = Err e -> r = Err e /\ sent = []) /\
  (forall q', In q' sent -> q' = q) /\ (length sent <= 1)%nat /\
  (forall page, r = Ok page ->
     validate_deck_id deck_id = Ok tt /\ sent = [q] /\
     exists response, send base_url q = Ok response /\
       is_success (http_status response) = true /\ response_json response = Ok page).
Proof.
  unfold client_fetch_page. rewrite client_validate_deck_id_same.
  destruct (validate_deck_id deck_id) as [[]|e0].
  2:{ split; [intros e He; injection He as ->; auto|].
      split; [intros ? []|]. split; [simpl; lia|]. intros page Hp; discriminate. }
  destruct (to_string_pretty _) as [txt|e0].
  2:{ split; [intros e He; discriminate|]. split; [intros ? []|].
      split; [simpl; lia|]. intros page Hp; discriminate. }
  destruct (send base_url _) as [response|e0] eqn:Hsend.
  2:{ split; [intros e He; discriminate|]. split; [intros ? [<-|[]]; reflexivity|].
      split; [simpl; lia|]. intros page Hp; discriminate. }
  destruct (is_success (http_status response)) eqn:Hs; simpl.
  - destruct (response_json response) as [page0|e0] eqn:Hj;
      (split; [intros e He; discriminate|]; split; [intros ? [<-|[]]; reflexivity|];
       split; [simpl; lia|]).
    + intros page Hp. injection Hp as <-. split; [reflexivity|]. split; [reflexivity|].
      exists response. auto.
    + intros page Hp; discriminate.
  - destruct (response_text response) as [text|e0];
      (split; [intros e He; discriminate|]; split; [intros ? [<-|[]]; reflexivity|];
       split; [simpl; lia|]; intros page Hp; discriminate).
Qed.

End DuocardsHttpFacts.

(* ------------------------------------------------------------------ *)
(** ** [validate_page_limit] *)

Lemma digit_value_digit_char (d : Z) :
  0 <= d < 10 -> digit_value (digit_char d) = Some d.
Proof.
  intros Hd.
  assert (d = 0 \/ d = 1 \/ d = 2 \/ d = 3 \/ d = 4 \/ d = 5 \/ d = 6 \/ d = 7 \/ d = 8 \/ d = 9)
    as Hcases by lia.
  repeat destruct Hcases as [->|Hcases]; try reflexivity; subst; reflexivity.
Qed.

Lemma parse_digits_dec_aux (f : nat) :
  forall (n : Z) (s : string), 0 <= n <= u32_max -> n < 10 ^ Z.of_nat (S f) ->
  parse_digits 0 (dec_aux (S f) n s) = parse_digits n s.
Proof.
  induction f as [|f IH]; intros n s Hn Hlt.
  - simpl in Hlt. simpl.
    assert (Hlt' : n < 10) by lia.
    replace (n <? 10) with true by (symmetry; apply Z.ltb_lt; lia).
    simpl. rewrite digit_value_digit_char by (apply Z.mod_pos_bound; lia).
    rewrite Z.mod_small by lia.
    replace (0 * 10 + n <=? u32_max) with true by (symmetry; apply Z.leb_le; lia).
    reflexivity.
  - change (dec_aux (S (S f)) n s) with
      (let acc' := String (digit_char (n mod 10)) s in
       if n <? 10 then acc' else dec_aux (S f) (n / 10) acc').
    cbv zeta.
    destruct (Z.ltb_spec n 10) as [Hsmall|Hbig].
    + simpl. rewrite digit_value_digit_char by (apply Z.mod_pos_bound; lia).
      rewrite Z.mod_small by lia.
      replace (0 * 10 + n <=? u32_max) with true by (symmetry; apply Z.leb_le; lia).
      reflexivity.
    + rewrite IH.
      * simpl. rewrite digit_value_digit_char by (apply Z.mod_pos_bound; lia).
        replace (n / 10 * 10 + n mod 10) with n by (pose proof (Z.div_mod n 10 ltac:(lia)); lia).
        replace (n <=? u32_max) with true by (symmetry; apply Z.leb_le; lia).
        reflexivity.
      * split; [apply Z.div_pos; lia|]. apply Z.div_le_upper_bound; lia.
      * apply Z.div_lt_upper_bound; [lia|].
        rewrite Nat2Z.inj_succ, Z.pow_succ_r in Hlt by lia. lia.
Qed.

Lemma dec_aux_head (f : nat) :
  forall (n : Z) (s : string), 0 <= n ->
  exists d rest, 0 <= d < 10 /\ dec_aux (S f) n s = String (digit_char d) rest.
Proof.
  induction f as [|f IH]; intros n s Hn.
  - exists (n mod 10), s. split; [apply Z.mod_pos_bound; lia|].
    simpl. destruct (n <? 10); reflexivity.
  - change (dec_aux (S (S f)) n s) with
      (let acc' := String (digit_char (n mod 10)) s in
       if n <? 10 then acc' else dec_aux (S f) (n / 10) acc').
    cbv zeta. destruct (n <? 10).
    + exists (n mod 10), s. split; [apply Z.mod_pos_bound; lia | reflexivity].
    + apply IH. apply Z.div_pos; lia.
Qed.

Lemma parse_digits_bound (s : string) :
  forall (acc m : Z), 0 <= acc <= u32_max -> parse_digits acc s = Some m -> 0 <= m <= u32_max.
Proof.
  induction s as [|c s IH]; intros acc m Hacc Hp; simpl in Hp.
  - injection Hp as <-. exact Hacc.
  - destruct (digit_value c) as [d|] eqn:Hd; [|discriminate].
    assert (0 <= d).
    { unfold digit_value in Hd.
      destruct (Z.leb_spec 48 (Z.of_nat (nat_of_ascii c))); [|discriminate].
      destruct (_ <=? 57); [injection Hd as <-; lia | discriminate]. }
    destruct (Z.leb_spec (acc * 10 + d) u32_max); [|discriminate].
    apply (IH (acc * 10 + d)); [lia | exact Hp].
Qed.

(** [validate_page_limit] accepts the decimal form of every [n] from 1
    to [u32::MAX] and returns [n]; whatever it accepts lies in that
    range. *)
Theorem validate_page_limit_roundtrip (n : Z) (Hn : 1 <= n <= u32_max) :
  validate_page_limit (u32_to_string n) = Ok n /\
  forall s m, validate_page_limit s = Ok m -> 1 <= m <= u32_max.
Proof.
  split.
  - unfold validate_page_limit, parse_u32, u32_to_string.
    destruct (dec_aux_head 9 n EmptyString) as (d & rest & Hd & Hhead); [lia|].
    change 10%nat with (S 9). rewrite Hhead.
    assert (Hv : digit_value (digit_char d) = Some d) by (apply digit_value_digit_char; exact Hd).
    destruct (Ascii.eqb_spec (digit_char d) "+") as [Hplus|_].
    { rewrite Hplus in Hv. discriminate. }
    destruct (Ascii.eqb_spec (digit_char d) "-") as [Hminus|_].
    { rewrite Hminus in Hv. discriminate. }
    cbn [orb andb]. rewrite <- Hhead.
    rewrite parse_digits_dec_aux; [| lia | unfold u32_max in Hn; simpl; lia].
    simpl. replace (0 <? n) with true by (symmetry; apply Z.ltb_lt; lia). reflexivity.
  - intros s m Hv. unfold validate_page_limit in Hv.
    destruct (parse_u32 s) as [k|] eqn:Hp; [|discriminate].
    destruct (Z.ltb_spec 0 k); [|discriminate]. injection Hv as <-.
    unfold parse_u32 in Hp. destruct s as [|c rest]; [discriminate|].
    assert (Hb : 0 <= 0 <= u32_max) by (unfold u32_max; lia).
    destruct (_ && _); [discriminate|].
    destruct (Ascii.eqb c "+");
      pose proof (parse_digits_bound _ 0 k Hb Hp); lia.
Qed.

(* ------------------------------------------------------------------ *)
(** ** More of the processor: pagination, statistics, the final write *)

Lemma fetches_app (tr1 tr2 : list Event) :
  fetches (tr1 ++ tr2) = fetches tr1 ++ fetches tr2.
Proof. induction tr1 as [|[] tr1 IH]; simpl; rewrite ?IH; reflexivity. Qed.

Lemma writes_app (tr1 tr2 : list Event) :
  writes (tr1 ++ tr2) = writes tr1 ++ writes tr2.
Proof. induction tr1 as [|[] tr1 IH]; simpl; rewrite ?IH; reflexivity. Qed.

Lemma count_added_app (tr1 tr2 : list Event) :
  count_added (tr1 ++ tr2) = (count_added tr1 + count_added tr2)%nat.
Proof.
  induction tr1 as [|[] tr1 IH]; simpl; rewrite ?IH; try reflexivity.
  destruct r as [[|]|]; simpl; rewrite ?IH; reflexivity.
Qed.

Lemma count_duplicates_app (tr1 tr2 : list Event) :
  count_duplicates (tr1 ++ tr2) = (count_duplicates tr1 + count_duplicates tr2)%nat.
Proof.
  induction tr1 as [|[] tr1 IH]; simpl; rewrite ?IH; try reflexivity.
  destruct duplicate; simpl; rewrite ?IH; reflexivity.
Qed.

Lemma fetches_nil (tr : list Event) : fetch_calls tr = O -> fetches tr = [].
Proof. induction tr as [|[] tr IH]; simpl; intros H; auto; discriminate. Qed.

Lemma writes_nil (tr : list Event) : no_write tr -> writes tr = [].
Proof.
  induction tr as [|ev tr IH]; intros H; [reflexivity|].
  assert (H' : no_write tr) by (intros d r Hin; apply (H d r); right; exact Hin).
  destruct ev as [| | | |d r]; simpl; try (apply IH; exact H').
  exfalso. apply (H d r). left. reflexivity.
Qed.

Lemma usize_wrap_small (x : Z) : 0 <= x < 2 ^ 64 -> usize_wrap x = x.
Proof. intros Hx. unfold usize_wrap. apply Z.mod_small. exact Hx. Qed.

Lemma usize_wrap_range (x : Z) : 0 <= usize_wrap x < 2 ^ 64.
Proof. unfold usize_wrap. apply Z.mod_pos_bound. lia. Qed.

Lemma usize_wrap_succ (x : Z) (k : nat) :
  usize_wrap (usize_wrap (x + 1) + Z.of_nat k) = usize_wrap (x + Z.of_nat (S k)).
Proof. unfold usize_wrap. rewrite Zplus_mod_idemp_l. f_equal. lia. Qed.

Lemma usize_wrap_twice (x y : Z) :
  usize_wrap (usize_wrap x + y) = usize_wrap (x + y).
Proof. unfold usize_wrap. apply Zplus_mod_idemp_l. Qed.

Section PipelineMore.
Context {C B : Type} `{DuocardsClientTrait C} `{OutputBuilder B}.

Lemma process_cards_output_path (p : Processor (C:=C) (B:=B)) (cards : list VocabularyCard) :
  let '(_, p', _) := process_cards p cards in output_path p' = output_path p.
Proof.
  revert p; induction cards as [|card rest IH]; intros p; simpl; [reflexivity|].
  destruct (try_remember (dedup p) (word card)) as [[|] d]; simpl.
  - specialize (IH (set_stats (set_dedup p d) (incr_duplicates (stats (set_dedup p d))))).
    destruct (process_cards _ rest) as [[r p'] tr]. exact IH.
  - destruct (add_note (builder p) card) as [[added|e] b]; simpl; [|reflexivity].
    match goal with |- context [process_cards ?q rest] =>
      specialize (IH q); destruct (process_cards q rest) as [[r p'] tr] end.
    rewrite IH. destruct added; reflexivity.
Qed.

Lemma process_loop_output_path (fuel : nat) (p : Processor (C:=C) (B:=B))
    (cursor : option string) (page_count : Z) :
  let '(_, p', _) := process_loop fuel p cursor page_count in output_path p' = output_path p.
Proof.
  revert p cursor page_count; induction fuel as [|fuel IH]; intros p cursor page_count;
    simpl; [reflexivity|].
  destruct (should_continue (client p) (u32_wrap (page_count + 1))); simpl; [|reflexivity].
  destruct (fetch_page (client p) (proc_deck_id p) cursor) as [[[response|e] c]|msg]; simpl;
    [|reflexivity ..].
  pose proof (process_cards_output_path (set_client p c) (convert_to_vocabulary_cards response))
    as Hc.
  destruct (process_cards (set_client p c) _) as [[[e|] p2] tr2]; [exact Hc|].
  destruct (has_next_page (page_info response)); simpl; [|exact Hc].
  specialize (IH p2 (end_cursor (page_info response)) (u32_wrap (page_count + 1))).
  destruct (process_loop fuel p2 _ _) as [[o p3] tr3]. rewrite IH. exact Hc.
Qed.

Lemma process_loop_cursor_chain (fuel : nat) (p : Processor (C:=C) (B:=B))
    (cursor : option string) (page_count : Z) :
  let '(_, _, tr) := process_loop fuel p cursor page_count in cursor_chain cursor (fetches tr).
Proof.
  revert p cursor page_count; induction fuel as [|fuel IH]; intros p cursor page_count;
    simpl; [exact I|].
  destruct (should_continue (client p) (u32_wrap (page_count + 1))); simpl; [|exact I].
  destruct (fetch_page (client p) (proc_deck_id p) cursor) as [[[response|e] c]|msg]; simpl;
    [|split; reflexivity | exact I].
  pose proof (process_cards_order (set_client p c) (convert_to_vocabulary_cards response))
    as Hc.
  destruct (process_cards (set_client p c) _) as [[r2 p2] tr2].
  destruct Hc as (_ & Hcalls & _). pose proof (fetches_nil tr2 Hcalls) as Hf.
  destruct r2 as [e|].
  - simpl. rewrite Hf. split; [reflexivity|]. split; [intros Hne; congruence | exact I].
  - destruct (has_next_page (page_info response)) eqn:Hnext; simpl.
    + specialize (IH p2 (end_cursor (page_info response)) (u32_wrap (page_count + 1))).
      destruct (process_loop fuel p2 _ _) as [[o p3] tr3].
      cbn [fetches]. rewrite fetches_app, Hf. simpl. split; [reflexivity|]. split; [intros _; exact Hnext|].
      exact IH.
    + rewrite Hf. split; [reflexivity|]. split; [intros Hne; congruence | exact I].
Qed.

(** The pagination of a run: the first [fetch_page] call passes no
    cursor, each later call passes the [end_cursor] of the page before,
    a page is followed by another call only if it reported
    [has_next_page], and a failed call is the last one. *)
Theorem process_cursor_chain (fuel : nat) (p : Processor (C:=C) (B:=B)) (w : World) :
  let '(_, _, _, tr) := process fuel p w in cursor_chain None (fetches tr).
Proof.
  unfold process, write_output.
  pose proof (process_loop_cursor_chain fuel p None 0) as Hc.
  destruct (process_loop fuel p None 0) as [[o p1] tr].
  destruct o; [|exact Hc ..].
  destruct (write (builder p1) _ w) as [r w'].
  rewrite fetches_app. simpl. rewrite app_nil_r. exact Hc.
Qed.

Lemma not_failed_add_cons (ev : Event) (tr : list Event) :
  ~ failed_add (ev :: tr) -> ~ failed_add tr.
Proof. intros Hn (card & e & Hin). apply Hn. exists card, e. right. exact Hin. Qed.

Lemma process_cards_stats (p : Processor (C:=C) (B:=B)) (cards : list VocabularyCard)
    (Ht : 0 <= total_cards (stats p) < 2 ^ 64) (Hd : 0 <= duplicates (stats p) < 2 ^ 64) :
  let '(r, p', tr) := process_cards p cards in
  total_cards (stats p') = usize_wrap (total_cards (stats p) + Z.of_nat (count_added tr)) /\
  duplicates (stats p') = usize_wrap (duplicates (stats p) + Z.of_nat (count_duplicates tr)) /\
  (r = None -> (count_duplicates tr + length (added_cards tr) = length cards)%nat).
Proof.
  revert p Ht Hd; induction cards as [|card rest IH]; intros p Ht Hd; simpl.
  - rewrite !Z.add_0_r, !usize_wrap_small by assumption. auto.
  - destruct (try_remember (dedup p) (word card)) as [[|] d]; simpl.
    + specialize (IH (set_stats (set_dedup p d) (incr_duplicates (stats (set_dedup p d))))
                    Ht (usize_wrap_range _)).
      destruct (process_cards _ rest) as [[r p'] tr]. destruct IH as (H1 & H2 & H3).
      simpl in *. split; [exact H1|]. split; [rewrite H2; apply usize_wrap_succ|].
      intros Hr. specialize (H3 Hr). simpl. lia.
    + destruct (add_note (builder p) card) as [[added|e] b]; simpl.
      * match goal with |- context [process_cards ?q rest] =>
          specialize (IH q
            ltac:(destruct added; simpl; first [exact Ht | apply usize_wrap_range])
            ltac:(destruct added; simpl; exact Hd));
          destruct (process_cards q rest) as [[r p'] tr] end.
        destruct IH as (H1 & H2 & H3).
        destruct added; simpl in *.
        -- split; [rewrite H1; apply usize_wrap_succ|]. split; [exact H2|].
           intros Hr. specialize (H3 Hr). simpl. lia.
        -- split; [exact H1|]. split; [exact H2|]. intros Hr. specialize (H3 Hr). simpl. lia.
      * rewrite !Z.add_0_r, !usize_wrap_small by assumption.
        split; [reflexivity|]. split; [reflexivity|]. discriminate.
Qed.

Lemma process_loop_stats (fuel : nat) (p : Processor (C:=C) (B:=B))
    (cursor : option string) (page_count : Z)
    (Ht : 0 <= total_cards (stats p) < 2 ^ 64) (Hd : 0 <= duplicates (stats p) < 2 ^ 64) :
  let '(_, p', tr) := process_loop fuel p cursor page_count in
  total_cards (stats p') = usize_wrap (total_cards (stats p) + Z.of_nat (count_added tr)) /\
  duplicates (stats p') = usize_wrap (duplicates (stats p) + Z.of_nat (count_duplicates tr)) /\
  (~ failed_add tr ->
   (count_duplicates tr + length (added_cards tr)
    = length (concat (map convert_to_vocabulary_cards (fetched_pages tr))))%nat).
Proof.
  revert p cursor page_count Ht Hd; induction fuel as [|fuel IH];
    intros p cursor page_count Ht Hd; simpl.
  { rewrite !Z.add_0_r, !usize_wrap_small by assumption. auto. }
  destruct (should_continue (client p) (u32_wrap (page_count + 1))); simpl.
  2:{ rewrite !Z.add_0_r, !usize_wrap_small by assumption. auto. }
  destruct (fetch_page (client p) (proc_deck_id p) cursor) as [[[response|e] c]|msg]; simpl.
  3:{ rewrite !Z.add_0_r, !usize_wrap_small by assumption. auto. }
  2:{ rewrite !Z.add_0_r, !usize_wrap_small by assumption. auto. }
  pose proof (process_cards_stats (set_client p c) (convert_to_vocabulary_cards response) Ht Hd)
    as Hs.
  pose proof (process_cards_order (set_client p c) (convert_to_vocabulary_cards response))
    as Ho.
  destruct (process_cards (set_client p c) _) as [[r2 p2] tr2].
  destruct Hs as (H1 & H2 & H3). destruct Ho as (Hpages & _ & Ho). simpl in H1, H2.
  destruct r2 as [e|].
  - simpl. split; [exact H1|]. split; [exact H2|].
    intros Hn. exfalso. destruct Ho as (_ & card & Hin). apply Hn. exists card, e. right. exact Hin.
  - destruct (has_next_page (page_info response)); simpl.
    + specialize (IH p2 (end_cursor (page_info response)) (u32_wrap (page_count + 1))
                    ltac:(rewrite H1; apply usize_wrap_range)
                    ltac:(rewrite H2; apply usize_wrap_range)).
      destruct (process_loop fuel p2 _ _) as [[o p3] tr3]. destruct IH as (H4 & H5 & H6).
      cbn [count_added count_duplicates added_cards fetched_pages].
      rewrite count_added_app, count_duplicates_app, added_cards_app, fetched_pages_app,
        Hpages.
      split; [rewrite H4, H1, usize_wrap_twice; f_equal; lia|].
      split; [rewrite H5, H2, usize_wrap_twice; f_equal; lia|].
      intros Hn. apply not_failed_add_cons in Hn. rewrite failed_add_app in Hn.
      specialize (H3 eq_refl). specialize (H6 ltac:(tauto)). simpl. rewrite !length_app. lia.
    + split; [exact H1|]. split; [exact H2|]. intros _.
      rewrite Hpages. simpl. rewrite app_nil_r. exact (H3 eq_refl).
Qed.

(** A run of a fresh processor reports in [total_cards] the number of
    [add_note] calls that answered [Ok(true)] and in [duplicates] the
    number of words already seen, both modulo [2^64]; when no [add_note]
    call failed, every fetched card is either such a duplicate or handed
    to the builder. *)
Theorem process_stats (fuel : nat) (c : C) (deck_id : string) (b : B) (path : string)
    (w : World) :
  let '(_, p1, _, tr) := process fuel (processor_output c deck_id b path) w in
  total_cards (stats p1) = usize_wrap (Z.of_nat (count_added tr)) /\
  duplicates (stats p1) = usize_wrap (Z.of_nat (count_duplicates tr)) /\
  (~ failed_add tr ->
   (count_duplicates tr + length (added_cards tr)
    = length (concat (map convert_to_vocabulary_cards (fetched_pages tr))))%nat).
Proof.
  unfold process, write_output.
  pose proof (process_loop_stats fuel (processor_output c deck_id b path) None 0
                ltac:(simpl; lia) ltac:(simpl; lia)) as Hs.
  destruct (process_loop fuel _ None 0) as [[o p1] tr]. simpl in Hs.
  destruct o; [|exact Hs ..].
  destruct (write (builder p1) _ w) as [r w'].
  rewrite count_added_app, count_duplicates_app, added_cards_app, fetched_pages_app.
  simpl. rewrite !Nat.add_0_r, !app_nil_r.
  destruct Hs as (H1 & H2 & H3). split; [exact H1|]. split; [exact H2|].
  intros Hn. apply H3. intros Hf. apply Hn. apply failed_add_app. left. exact Hf.
Qed.

(** [process] calls [write] at most once: as its last step, after a loop
    that ended without a failed call, on the destination
    [write_output] derives from the output path ([Writer] for "-", the
    file otherwise), and it returns what [write] returned. Otherwise it
    writes nothing, leaves the world as it was and returns an error or
    runs out of fuel. *)
Theorem process_single_write (fuel : nat) (p : Processor (C:=C) (B:=B)) (w : World) :
  let '(r, p1, w', tr) := process fuel p w in
  (writes tr = [] /\ w' = w /\ (r = None \/ exists e, r = Some (Err e))) \/
  (exists tr0 res,
     tr = tr0 ++ [EvWrite (destination_of (output_path p)) res] /\
     writes tr0 = [] /\ no_failure tr0 /\ r = Some res /\
     write (builder p1) (destination_of (output_path p)) w = (res, w')).
Proof.
  unfold process, write_output.
  pose proof (process_loop_failure fuel p None 0) as Hf.
  pose proof (process_loop_output_path fuel p None 0) as Hp.
  destruct (process_loop fuel p None 0) as [[o p1] tr]. destruct Hf as [Hw Hf].
  destruct o as [|e| |].
  - rewrite Hp. fold (destination_of (output_path p)).
    destruct (write (builder p1) (destination_of (output_path p)) w) as [res w'] eqn:Hwr.
    right. exists tr, res. split; [reflexivity|]. split; [exact (writes_nil tr Hw)|].
    split; [exact Hf|]. split; [reflexivity | exact Hwr].
  - simpl. left. split; [exact (writes_nil tr Hw)|]. split; [reflexivity|]. right. exists e. reflexivity.
  - simpl. left. split; [exact (writes_nil tr Hw)|]. split; [reflexivity|]. left. reflexivity.
  - simpl. left. split; [exact (writes_nil tr Hw)|]. split; [reflexivity|]. left. reflexivity.
Qed.

End PipelineMore.

Lemma dedup_filter_fresh (s : gset string) (l : list VocabularyCard) :
  NoDup (map word (dedup_filter s l)) /\
  forall k, k ∈ map word (dedup_filter s l) -> k ∉ s.
Proof.
  revert s; induction l as [|c rest IH]; intros s; simpl.
  - split; [constructor|]. intros k Hk. inversion Hk.
  - destruct (decide (word c ∈ s)) as [Hin|Hnin]; [apply IH|].
    destruct (IH ({[word c]} ∪ s)) as [Hnd Hfr]. simpl. split.
    + constructor; [|exact Hnd]. intros Hk. apply (Hfr _ Hk). set_solver.
    + intros k Hk. apply elem_of_cons in Hk as [->|Hk]; [exact Hnin|].
      specialize (Hfr k Hk). set_solver.
Qed.

Section JsonPipeline.
Context {C : Type} `{DuocardsClientTrait C}.
Variable json_write : JsonOutputBuilder -> OutputDestination -> World -> Result unit * World.
#[local] Instance json_output_builder : OutputBuilder JsonOutputBuilder :=
  JsonOutputBuilder_builder json_write.

Lemma json_process_cards (p : Processor (C:=C) (B:=JsonOutputBuilder))
    (vcs : list VocabularyCard)
    (Hinv : json_existing_words (builder p) ⊆ processed_words (dedup p)) :
  let '(r, p', tr) := process_cards p vcs in
  r = None /\ json_existing_words (builder p') ⊆ processed_words (dedup p') /\
  cards (builder p') = cards (builder p) ++ added_cards tr.
Proof.
  revert p Hinv; induction vcs as [|card rest IH]; intros p Hinv; simpl.
  - rewrite app_nil_r. auto.
  - unfold try_remember.
    destruct (decide (word card ∈ processed_words (dedup p))) as [Hin|Hnin]; simpl.
    + match goal with |- context [process_cards ?q rest] =>
        specialize (IH q ltac:(simpl; exact Hinv)); destruct (process_cards q rest) as [[r p'] tr] end.
      exact IH.
    + unfold json_add_note. rewrite decide_False by set_solver. simpl.
      match goal with |- context [process_cards ?q rest] =>
        specialize (IH q ltac:(simpl; set_solver)); destruct (process_cards q rest) as [[r p'] tr] end.
      destruct IH as (Hr & Hi & Hc). split; [exact Hr|]. split; [exact Hi|].
      rewrite Hc. simpl. rewrite <- app_assoc. reflexivity.
Qed.

Lemma json_process_loop (fuel : nat) (p : Processor (C:=C) (B:=JsonOutputBuilder))
    (cursor : option string) (page_count : Z)
    (Hinv : json_existing_words (builder p) ⊆ processed_words (dedup p)) :
  let '(_, p', tr) := process_loop fuel p cursor page_count in
  ~ failed_add tr /\ json_existing_words (builder p') ⊆ processed_words (dedup p') /\
  cards (builder p') = cards (builder p) ++ added_cards tr.
Proof.
  revert p cursor page_count Hinv; induction fuel as [|fuel IH];
    intros p cursor page_count Hinv; simpl.
  { rewrite app_nil_r. split; [intros (? & ? & [])|]. auto. }
  destruct (should_continue (client p) (u32_wrap (page_count + 1))); simpl.
  2:{ rewrite app_nil_r. split; [intros (? & ? & [])|]. auto. }
  destruct (fetch_page (client p) (proc_deck_id p) cursor) as [[[response|e] c]|msg]; simpl.
  3:{ rewrite app_nil_r. split; [intros (? & ? & [])|]. auto. }
  2:{ rewrite app_nil_r. split; [intros (? & ? & [[=]|[]])|]. auto. }
  pose proof (json_process_cards (set_client p c) (convert_to_vocabulary_cards response) Hinv)
    as Hc.
  pose proof (process_cards_order (set_client p c) (convert_to_vocabulary_cards response))
    as Ho.
  destruct (process_cards (set_client p c) _) as [[r2 p2] tr2].
  destruct Hc as (-> & Hi & Hcards). destruct Ho as (_ & _ & _ & _ & Hnf).
  destruct (has_next_page (page_info response)); simpl.
  - specialize (IH p2 (end_cursor (page_info response)) (u32_wrap (page_count + 1)) Hi).
    destruct (process_loop fuel p2 _ _) as [[o p3] tr3]. destruct IH as (Hnf3 & Hi3 & Hc3).
    split.
    + intros (card & e & [Heq|Hin]); [discriminate|].
      apply in_app_or in Hin as [Hin|Hin];
        [apply Hnf | apply Hnf3]; exists card, e; exact Hin.
    + split; [exact Hi3|]. rewrite Hc3, Hcards. cbn [added_cards]. rewrite added_cards_app, app_assoc. reflexivity.
  - split; [|split; [exact Hi | exact Hcards]].
    intros (card & e & [Heq|Hin]); [discriminate|]. apply Hnf. exists card, e. exact Hin.
Qed.

(** With the JSON builder, no [add_note] call of a run fails, and the
    builder ends up holding the fetched cards, in the order fetched, each
    word once (its first card). *)
Theorem json_process_output (fuel : nat) (c : C) (deck_id path : string) (w : World) :
  let '(_, p1, _, tr) :=
    process fuel (processor_output c deck_id JsonOutputBuilder_new path) w in
  ~ failed_add tr /\
  cards (builder p1) = dedup_filter ∅ (concat (map convert_to_vocabulary_cards (fetched_pages tr))) /\
  NoDup (map word (cards (builder p1))).
Proof.
  unfold process, write_output.
  pose proof (json_process_loop fuel (processor_output c deck_id JsonOutputBuilder_new path)
                None 0 ltac:(simpl; set_solver)) as Hj.
  pose proof (process_loop_order fuel (processor_output c deck_id JsonOutputBuilder_new path)
                None 0) as Ho.
  destruct (process_loop fuel _ None 0) as [[o p1] tr].
  destruct Hj as (Hnf & _ & Hc). destruct Ho as [_ Ho]. specialize (Ho Hnf).
  simpl in Hc, Ho.
  assert (Hout : cards (builder p1)
                 = dedup_filter ∅ (concat (map convert_to_vocabulary_cards (fetched_pages tr)))
                 /\ NoDup (map word (cards (builder p1)))).
  { rewrite Hc, <- Ho. split; [reflexivity|]. rewrite Ho. apply dedup_filter_fresh. }
  destruct o; [|split; [exact Hnf | exact Hout] ..].
  destruct (write (builder p1) _ w) as [r w'].
  rewrite fetched_pages_app. simpl. rewrite app_nil_r.
  split; [|exact Hout].
  intros Hf. apply failed_add_app in Hf as [Hf|(card & e & [Heq|[]])]; [exact (Hnf Hf)|discriminate].
Qed.

End JsonPipeline.

Section AnkiStdout.
Variables Deck Model Note : Type.
Variable Note_new : Model -> list string -> result Note string.
Variable Note_tags : Note -> list string -> Note.
Variable Deck_add_note : Deck -> Note -> Deck.
Variable Deck_write_to_file : Deck -> string -> World -> result unit string * World.
Context {C : Type} `{DuocardsClientTrait C}.
#[local] Instance anki_output_builder : OutputBuilder (AnkiPackageBuilder Deck Model) :=
  AnkiPackageBuilder_builder Deck Model Note Note_new Note_tags Deck_add_note Deck_write_to_file.

(** With the Anki builder and the output path "-", a run never succeeds
    and leaves the world as it was: its only possible [write] is to the
    standard output and fails with [AnkiOutputNotSupported]. *)
Theorem anki_process_stdout (fuel : nat) (p : Processor (C:=C) (B:=AnkiPackageBuilder Deck Model))
    (w : World) (Hpath : output_path p = "-") :
  let '(r, _, w', tr) := process fuel p w in
  w' = w /\ r <> Some (Ok tt) /\
  forall d res, In (d, res) (writes tr) -> d = Writer /\ res = Err AnkiOutputNotSupported.
Proof.
  unfold process, write_output.
  pose proof (process_loop_failure fuel p None 0) as Hf.
  pose proof (process_loop_output_path fuel p None 0) as Hp.
  destruct (process_loop fuel p None 0) as [[o p1] tr]. destruct Hf as [Hw _].
  destruct o as [|e| |]; simpl.
  - rewrite Hp, Hpath. simpl.
    split; [reflexivity|]. split; [discriminate|].
    rewrite writes_app, (writes_nil tr Hw). simpl.
    intros d res [Heq|[]]. injection Heq as <- <-. auto.
  - split; [reflexivity|]. split; [discriminate|].
    rewrite (writes_nil tr Hw). intros d res [].
  - split; [reflexivity|]. split; [discriminate|].
    rewrite (writes_nil tr Hw). intros d res [].
  - split; [reflexivity|]. split; [discriminate|].
    rewrite (writes_nil tr Hw). intros d res [].
Qed.

End AnkiStdout.

Lemma validate_page_limit_roundtrip_witness :
  (1 <= 4294967295 <= u32_max) /\
  validate_page_limit (u32_to_string 4294967295) = Ok 4294967295.
Proof.
  split; [unfold u32_max; lia|].
  exact (proj1 (validate_page_limit_roundtrip 4294967295 ltac:(unfold u32_max; lia))).
Defined.

Lemma anki_process_stdout_witness :
  output_path anki_stdout_processor = "-" /\
  let '(r, _, w', tr) := @process _ _ _ mem_anki_builder 5 anki_stdout_processor empty_world in
  w' = empty_world /\ r <> Some (Ok tt) /\
  forall d res, In (d, res) (writes tr) -> d = Writer /\ res = Err AnkiOutputNotSupported.
Proof.
  split; [reflexivity|].
  exact (anki_process_stdout (list (list string)) unit (list string) mem_note_new mem_note_tags
           mem_deck_add_note mem_write_to_file 5 anki_stdout_processor empty_world eq_refl).
Defined.

Lemma page_limit_below_u32_max_witness :
  Z.of_nat (length [page_hello_world; page_hello]) < u32_max /\
  Forall (fun r => has_next_page (page_info r) = true) [page_hello_world; page_hello] /\
  (forall (b' : TestOutputBuilder) card,
     exists added b'', add_note b' card = (Ok added, b'')) /\
  (let c := mkTestDuocardsClient ([page_hello_world; page_hello] ++ [])
              (Some (Z.of_nat (length [page_hello_world; page_hello]))) in
   let '(o, _, tr) :=
     process_loop (length [page_hello_world; page_hello] + S 0)
       (processor_output c "deck" (mkTestOutputBuilder []) "out.txt") None 0 in
   o = LoopDone /\ fetch_calls tr = length [page_hello_world; page_hello]).
Proof.
  assert (Hn : Z.of_nat (length [page_hello_world; page_hello]) < u32_max)
    by (simpl; unfold u32_max; lia).
  assert (Hnext : Forall (fun r => has_next_page (page_info r) = true)
                    [page_hello_world; page_hello])
    by (repeat constructor).
  assert (Hadd : forall (b' : TestOutputBuilder) card,
            exists added b'', add_note b' card = (Ok added, b'')).
  { intros b' card. simpl. destruct (existsb _ _); eauto. }
  split; [exact Hn|]. split; [exact Hnext|]. split; [exact Hadd|].
  exact (page_limit_below_u32_max [page_hello_world; page_hello] [] 0 (mkTestOutputBuilder [])
           "deck" "out.txt" Hn Hnext Hadd).
Defined.
